(** * Icon pipeline of [assets/generate_icons.py]

    The script locates or draws a base picture, resizes it to a fixed list
    of sizes and packs the per-size files into one icon container.  All
    pixel work is done by the Pillow imaging library; the script owns the
    control flow and the file names.  The development below embeds the
    script as a program in a small monad over the file system, with a log
    of every call it makes, and states the properties of the written
    specification about it. *)

From stdpp Require Import gmap strings list sorting pretty.

Local Open Scope positive_scope.
Local Open Scope string_scope.

(** ** Rasters as the imaging library hands them out *)

Module Pillow.

(** [Image.Resampling] *)
Inductive resampling :=
  NEAREST | BOX | BILINEAR | HAMMING | BICUBIC | LANCZOS.

(** A colour argument: an [(r, g, b)] tuple or a colour string such as
    ['white'] or ['#fbbf24']. *)
Inductive paint :=
| rgb (r g b : Z)
| named (spec : string).

(** The [ImageDraw] primitives the script calls, with their arguments. *)
Inductive shape :=
| rounded_rectangle (box : Z * Z * Z * Z) (radius : Z) (fill : paint)
| rectangle (box : Z * Z * Z * Z) (fill : paint)
| polygon (points : list (Z * Z)) (fill : paint)
| ellipse (box : Z * Z * Z * Z) (fill : paint)
| text (at_ : Z * Z) (glyphs : string) (fill : paint).

(** Pixel content is kept symbolic: a raster is the term that says how the
    library was asked to produce it.  [stored n] is the content of a file
    that was on disk before the script ran. *)
Inductive raster :=
| blank (fill : paint)
| drawn (under : raster) (s : shape)
| resampled (src : raster) (from to : positive * positive) (f : resampling)
| stored (payload : N).

(** [Image.Image]: pixel mode (['RGB'], ['RGBA'], ['P'], ...), [size] as
    [(width, height)], and the pixels. *)
Record image := Image {
  mode : string;
  size : positive * positive;
  pixels : raster
}.

(** Modes with an alpha band. *)
Definition has_alpha (im : image) : bool :=
  bool_decide (mode im ∈ ["RGBA"; "LA"; "PA"; "RGBa"; "La"]).

(** [Image.new(mode, size, color)] *)
Definition new (m : string) (sz : positive * positive) (color : paint) : image :=
  {| mode := m; size := sz; pixels := blank color |}.

(** One [ImageDraw.Draw(img)] call: paints onto [img] in place. *)
Definition draw (img : image) (s : shape) : image :=
  {| mode := mode img; size := size img; pixels := drawn (pixels img) s |}.

(** [im.resize(size, resample)]: a new image of the requested size, same
    mode. *)
Definition resize (im : image) (sz : positive * positive) (f : resampling) : image :=
  {| mode := mode im; size := sz;
     pixels := resampled (pixels im) (size im) sz f |}.

(** What a file holds, as far as the library is concerned. *)
Inductive file :=
| picture (im : image)              (* a single-image file that decodes to [im] *)
| icon_container (frames : list image)  (* an ICO file with its embedded images *)
| unreadable.                        (* anything the library cannot identify *)

Definition area (im : image) : Z := Z.pos (size im).1 * Z.pos (size im).2.

(** The frame an ICO file shows when opened: the first one of largest
    area. *)
Fixpoint largest (frames : list image) : option image :=
  match frames with
  | [] => None
  | fr :: rest =>
      match largest rest with
      | Some best => if bool_decide (area fr < area best)%Z then Some best else Some fr
      | None => Some fr
      end
  end.

(** [Image.open] on the content of a file. *)
Definition decode (f : file) : option image :=
  match f with
  | picture im => Some im
  | icon_container frames => largest frames
  | unreadable => None
  end.

(** *** The ICO writer

    [im.save(path, format='ICO', sizes=...)], as the library documents it
    and as its ICO plugin does it in the versions that have
    [Image.Resampling] (9.1 and later): it walks [sorted(set(sizes))],
    ignores every size that is larger than [im] or than 256 in either
    direction, takes [im] itself where the size is its own and a
    thumbnail of [im] otherwise, and records each embedded image with the
    dimensions that image has.  Only [im] is a source of pixels: the
    script passes no [append_images]. *)

Definition size_lt (a b : positive * positive) : bool :=
  bool_decide (a.1 < b.1) || (bool_decide (a.1 = b.1) && bool_decide (a.2 < b.2)).

Fixpoint insert_size (s : positive * positive) (l : list (positive * positive))
  : list (positive * positive) :=
  match l with
  | [] => [s]
  | t :: rest =>
      if bool_decide (s = t) then l
      else if size_lt s t then s :: l
      else t :: insert_size s rest
  end.

(** [sorted(set(sizes))] *)
Definition sorted_set (sizes : list (positive * positive)) : list (positive * positive) :=
  foldr insert_size [] sizes.

Definition too_large (im : image) (s : positive * positive) : bool :=
  bool_decide ((size im).1 < s.1) || bool_decide ((size im).2 < s.2)
  || bool_decide (256 < s.1) || bool_decide (256 < s.2).

(** [round_aspect(number, key)] of [Image.thumbnail], for the quotient
    [num / den]: the floor or the ceiling, whichever has the smaller key
    (the floor on a tie), and at least 1. *)
Definition round_aspect (num den : Z) (key_le : Z → Z → bool) : positive :=
  let lo := (num `div` den)%Z in
  let hi := (if bool_decide (num `mod` den = 0)%Z then lo else lo + 1)%Z in
  Z.to_pos (Z.max (if key_le lo hi then lo else hi) 1).

(** The size [Image.thumbnail] settles on for a [w] x [h] image and the
    requested bound [(x, y)], keeping the aspect ratio.  The library
    computes the ratios in floating point; they are compared exactly
    here.  [None] when the image already fits. *)
Definition thumbnail_size (wh xy : positive * positive) : option (positive * positive) :=
  let '(w, h) := (Z.pos wh.1, Z.pos wh.2) in
  let '(x, y) := (Z.pos xy.1, Z.pos xy.2) in
  if bool_decide (w ≤ x)%Z && bool_decide (h ≤ y)%Z then None
  else if bool_decide (y * w ≤ x * h)%Z then
    (* x / y >= aspect: key n = |aspect - n / y| *)
    Some (round_aspect (y * w) h
            (λ n1 n2, bool_decide (Z.abs (w * y - n1 * h) ≤ Z.abs (w * y - n2 * h))%Z),
          xy.2)
  else
    (* key n = 0 if n == 0 else |aspect - x / n| *)
    Some (xy.1,
          round_aspect (x * h) w
            (λ n1 n2, bool_decide (n1 = 0)%Z
                      || bool_decide (Z.abs (w * n1 - x * h) * n2
                                      ≤ Z.abs (w * n2 - x * h) * n1)%Z)).

(** [frame = im.copy(); frame.thumbnail(size, LANCZOS)] *)
Definition thumbnail (im : image) (bound : positive * positive) : image :=
  match thumbnail_size (size im) bound with
  | Some sz => resize im sz LANCZOS
  | None => im
  end.

(** The images the ICO writer embeds, in the order it writes them. *)
Definition ico_frames (im : image) (sizes : list (positive * positive)) : list image :=
  (λ s, if bool_decide (size im = s) then im else thumbnail im s)
    <$> filter (λ s, too_large im s = false) (sorted_set sizes).

End Pillow.

Import Pillow.

(** ** The script's effects

    The script has no error handling of its own beyond the guarded import:
    an exception of the library ends the run.  Opening a file is the call
    that can fail here (a file the library cannot identify).  Drawing,
    resizing and saving are taken to succeed.  The library can refuse them:
    a picture in a mode PNG cannot store is not saved, a file that is
    identified but cut short fails when its pixels are first needed, a
    write can fail on the disk.  Such a call ends the run with the
    library's exception where this model goes on: a run that returns here
    stands for the run in which the library accepted every such call, and
    a log here for the calls made up to the one it refused.  The picture
    the script draws itself is RGB, which PNG and ICO both store.
    [Image.open] reads lazily; no file the script has opened is written
    again before the script is done with it, so it is modelled as reading
    at once. *)

(** Everything the script does to the outside world, in program order. *)
Inductive event :=
| Print (line : string)
| Chdir (dir : string)
| Exists (path : string) (found : bool)
| ImageNew (m : string) (sz : positive * positive) (color : paint)
| Draw (s : shape)
| ImageOpen (path : string)
| Resize (src : image) (sz : positive * positive) (f : resampling)
| Save (path : string) (im : image)
| SaveIco (path : string) (im : image) (sizes : list (positive * positive)).

Inductive exn :=
| SystemExit (code : Z)
| FileNotFoundError (path : string)
| UnidentifiedImageError (path : string).

Inductive outcome (A : Type) :=
| Returned (a : A)
| Raised (e : exn).
Arguments Returned {A} a.
Arguments Raised {A} e.

(** The state of a computation when it stops: its outcome, the files on
    disk, and what it did on the way. *)
Record run (A : Type) := Run {
  res : outcome A;
  disk : gmap string file;
  trace : list event
}.
Arguments Run {A} res disk trace.
Arguments res {A} r.
Arguments disk {A} r.
Arguments trace {A} r.

(** A computation starts from the files on disk.  An exception stops it
    and leaves on disk whatever was written before. *)
Definition M (A : Type) : Type := gmap string file → run A.

Definition ret {A} (a : A) : M A := λ fs, Run (Returned a) fs [].

Definition bind {A B} (m : M A) (k : A → M B) : M B := λ fs,
  let r := m fs in
  match res r with
  | Returned a =>
      let r' := k a (disk r) in
      Run (res r') (disk r') (trace r ++ trace r')
  | Raised e => Run (Raised e) (disk r) (trace r)
  end.

Definition raise {A} (e : exn) : M A := λ fs, Run (Raised e) fs [].

Definition emit (e : event) : M unit := λ fs, Run (Returned ()) fs [e].

#[global] Instance M_ret : MRet M := @ret.
#[global] Instance M_bind : MBind M := λ A B k m, bind m k.

(** The process exit status of a run of the script. *)
Definition exit_status {A} (o : outcome A) : Z :=
  match o with
  | Returned _ => 0
  | Raised (SystemExit code) => code
  | Raised _ => 1
  end%Z.

(** *** The calls the script makes *)

Definition print (line : string) : M unit := emit (Print line).

Definition os_chdir (dir : string) : M unit := emit (Chdir dir).

(** [path.exists()] *)
Definition path_exists (path : string) : M bool := λ fs,
  let found := bool_decide (is_Some (fs !! path)) in
  Run (Returned found) fs [Exists path found].

(** [Image.new(...)] *)
Definition Image_new (m : string) (sz : positive * positive) (color : paint) : M image :=
  emit (ImageNew m sz color);; ret (new m sz color).

(** [draw.<shape>(...)] on the picture [img] that [draw] was made for *)
Definition ImageDraw (img : image) (s : shape) : M image :=
  emit (Draw s);; ret (draw img s).

(** [Image.open(path)] *)
Definition Image_open (path : string) : M image := λ fs,
  match fs !! path with
  | None => Run (Raised (FileNotFoundError path)) fs [ImageOpen path]
  | Some f =>
      match decode f with
      | Some im => Run (Returned im) fs [ImageOpen path]
      | None => Run (Raised (UnidentifiedImageError path)) fs [ImageOpen path]
      end
  end.

(** [im.resize((w, h), filter)] *)
Definition Image_resize (im : image) (sz : positive * positive) (f : resampling) : M image :=
  emit (Resize im sz f);; ret (resize im sz f).

(** [im.save(path)] for a [.png] path: the file now decodes to [im]. *)
Definition Image_save (im : image) (path : string) : M unit := λ fs,
  Run (Returned ()) (<[path := picture im]> fs) [Save path im].

(** [im.save(path, format='ICO', sizes=sizes)] *)
Definition Image_save_ico (im : image) (path : string)
    (sizes : list (positive * positive)) : M unit := λ fs,
  Run (Returned ()) (<[path := icon_container (ico_frames im sizes)]> fs)
      [SaveIco path im sizes].

(** ** The script *)

Section Script.

(** [SCRIPT_DIR = Path(__file__).parent], the directory the script lives
    in.  It is taken to be absolute, as [__file__] is for a script run by
    Python 3.9 and later, so that the paths built from it mean the same
    before and after [os.chdir]. *)
Variable SCRIPT_DIR : string.

Definition SIZES : list positive := [16; 32; 48; 64; 128; 256].

(** [SCRIPT_DIR / name] *)
Definition in_script_dir (name : string) : string := SCRIPT_DIR +:+ "/" +:+ name.

(** [f"icon-{size}.png"] *)
Definition png_name (size : positive) : string := "icon-" +:+ pretty size +:+ ".png".

(** [SCRIPT_DIR / f"icon-{size}.png"] *)
Definition png_path (size : positive) : string := in_script_dir (png_name size).

Definition base_image_path : string := in_script_dir "icon-256.png".

Definition ico_path : string := in_script_dir "icon.ico".

Definition create_simple_icon : M image :=
  print "创建简单图标...";;
  img ← Image_new "RGB" (256, 256) (rgb 102 126 234);
  img ← ImageDraw img (rounded_rectangle (40, 60, 216, 196)%Z 16 (named "white"));
  img ← ImageDraw img (rectangle (80, 100, 176, 160)%Z (named "#fbbf24"));
  img ← ImageDraw img
          (polygon [(80, 100); (110, 100); (120, 90); (150, 90); (150, 100)]%Z
                   (named "#fbbf24"));
  img ← ImageDraw img (ellipse (110, 120, 146, 156)%Z (named "#667eea"));
  img ← ImageDraw img (text (120, 125)%Z "🎬" (named "white"));
  ret img.

(** Lines 50-57 of [main]: find the base picture or make one. *)
Definition acquire_base : M image :=
  found ← path_exists base_image_path;
  if negb found then
    print "未找到 icon-256.png，创建简单图标...";;
    base_img ← create_simple_icon;
    Image_save base_img base_image_path;;
    print ("  ✓ 已创建 " +:+ base_image_path);;
    ret base_img
  else
    print ("使用现有图标: " +:+ base_image_path);;
    Image_open base_image_path.

(** Lines 61-67: the resize loop over a list of sizes. *)
Fixpoint resize_loop (base_img : image) (sizes : list positive) : M unit :=
  match sizes with
  | [] => ret ()
  | size :: rest =>
      if bool_decide (size = 256) then resize_loop base_img rest
      else
        let output_path := png_path size in
        resized ← Image_resize base_img (size, size) LANCZOS;
        Image_save resized output_path;;
        print ("  ✓ icon-" +:+ pretty size +:+ ".png");;
        resize_loop base_img rest
  end.

(** Lines 72-75: the per-size files that exist, opened in list order. *)
Fixpoint collect_loop (sizes : list positive) (ico_images : list image)
  : M (list image) :=
  match sizes with
  | [] => ret ico_images
  | size :: rest =>
      let img_path := png_path size in
      found ← path_exists img_path;
      if (found : bool) then
        img ← Image_open img_path;
        collect_loop rest (ico_images ++ [img])
      else collect_loop rest ico_images
  end.

(** Lines 71-84: the packaging phase. *)
Definition package : M unit :=
  ico_images ← collect_loop SIZES [];
  match ico_images with
  | first :: _ =>
      Image_save_ico first ico_path (size <$> ico_images);;
      print "  ✓ icon.ico"
  | [] => ret ()
  end.

(** Lines 86-89. *)
Definition report : M unit :=
  print "
✅ 图标生成完成！";;
  print ("
生成的文件位于: " +:+ SCRIPT_DIR);;
  print "  - icon-*.png (各种尺寸)";;
  print "  - icon.ico (Windows 图标)".

Definition main : M unit :=
  os_chdir SCRIPT_DIR;;
  base_img ← acquire_base;
  print "
生成不同尺寸的 PNG...";;
  resize_loop base_img SIZES;;
  print "
生成 Windows ICO 文件...";;
  package;;
  report.

(** The module as run from the command line: the guarded import at the
    top (lines 11-16), then [main()]. *)
Definition script (pillow_installed : bool) : M unit :=
  if pillow_installed then main
  else
    print "错误: 需要安装 Pillow";;
    print "运行: pip install Pillow";;
    raise (SystemExit 1).

End Script.

(** ** What a run is expected to do

    The closed forms below say, for each phase of [main], which files it
    leaves and which calls it logs; the lemmas further down prove that the
    script does exactly that. *)

Section Expected.
Context (d : string).

(** The shapes [create_simple_icon] draws, in order. *)
Definition icon_shapes : list shape :=
  [ rounded_rectangle (40, 60, 216, 196)%Z 16 (named "white");
    rectangle (80, 100, 176, 160)%Z (named "#fbbf24");
    polygon [(80, 100); (110, 100); (120, 90); (150, 90); (150, 100)]%Z
            (named "#fbbf24");
    ellipse (110, 120, 146, 156)%Z (named "#667eea");
    text (120, 125)%Z "🎬" (named "white") ].

(** The picture [create_simple_icon] returns. *)
Definition simple_icon : image :=
  foldl draw (new "RGB" (256, 256) (rgb 102 126 234)) icon_shapes.

(** What [create_simple_icon] logs. *)
Definition drawing_trace : list event :=
  Print "创建简单图标..."
  :: ImageNew "RGB" (256, 256) (rgb 102 126 234)
  :: (Draw <$> icon_shapes).

(** What acquisition logs when it has to draw the base picture. *)
Definition synthesis_trace : list event :=
  [Exists (base_image_path d) false; Print "未找到 icon-256.png，创建简单图标..."]
  ++ drawing_trace
  ++ [Save (base_image_path d) simple_icon;
      Print ("  ✓ 已创建 " +:+ base_image_path d)].

(** What it logs when a file is already there. *)
Definition load_trace : list event :=
  [Exists (base_image_path d) true;
   Print ("使用现有图标: " +:+ base_image_path d);
   ImageOpen (base_image_path d)].

(** The per-size picture the loop derives from the base picture. *)
Definition variant (base_img : image) (size : positive) : image :=
  resize base_img (size, size) LANCZOS.

(** The files on disk after the loop has gone through [sizes]. *)
Fixpoint write_variants (base_img : image) (sizes : list positive)
    (fs : gmap string file) : gmap string file :=
  match sizes with
  | [] => fs
  | size :: rest =>
      if bool_decide (size = 256) then write_variants base_img rest fs
      else write_variants base_img rest
             (<[png_path d size := picture (variant base_img size)]> fs)
  end.

(** What the loop logs for one size. *)
Definition resize_events (base_img : image) (size : positive) : list event :=
  if bool_decide (size = 256) then []
  else [Resize base_img (size, size) LANCZOS;
        Save (png_path d size) (variant base_img size);
        Print ("  ✓ icon-" +:+ pretty size +:+ ".png")].

(** The pictures the packaging loop opens: one per size whose file is on
    disk. *)
Definition collected (fs : gmap string file) (sizes : list positive) : list image :=
  omap (λ size, fs !! png_path d size ≫= decode) sizes.

(** What the loop logs for one size. *)
Definition collect_events (fs : gmap string file) (size : positive) : list event :=
  match fs !! png_path d size with
  | Some _ => [Exists (png_path d size) true; ImageOpen (png_path d size)]
  | None => [Exists (png_path d size) false]
  end.

(** The disk after packaging, given the pictures collected. *)
Definition packed (fs : gmap string file) (ico_images : list image) : gmap string file :=
  match ico_images with
  | first :: _ =>
      <[ico_path d := icon_container (ico_frames first (size <$> ico_images))]> fs
  | [] => fs
  end.

Definition pack_events (ico_images : list image) : list event :=
  match ico_images with
  | first :: _ =>
      [SaveIco (ico_path d) first (size <$> ico_images); Print "  ✓ icon.ico"]
  | [] => []
  end.

(** What [report] prints. *)
Definition report_trace : list event :=
  [Print "
✅ 图标生成完成！";
   Print ("
生成的文件位于: " +:+ d);
   Print "  - icon-*.png (各种尺寸)";
   Print "  - icon.ico (Windows 图标)"].

(** [main] after the base picture is in hand (lines 59-89). *)
Definition finish (base_img : image) : M unit :=
  print "
生成不同尺寸的 PNG...";;
  resize_loop d base_img SIZES;;
  print "
生成 Windows ICO 文件...";;
  package d;;
  report d.

(** The picture the packaging loop finds for [size] after a resize loop
    over [base_img], when the file at the base path decodes to [b]. *)
Definition found_for (base_img b : image) (size : positive) : image :=
  if bool_decide (size = 256) then b else variant base_img size.

Definition ico_images_of (base_img b : image) : list image :=
  found_for base_img b <$> SIZES.

(** The container the script writes from them: the first picture is the
    one saved, the others only contribute their sizes. *)
Definition container_of (base_img b : image) : file :=
  icon_container
    (ico_frames (variant base_img 16) (size <$> ico_images_of base_img b)).

Definition finish_disk (base_img b : image) (fs : gmap string file) : gmap string file :=
  <[ico_path d := container_of base_img b]> (write_variants base_img SIZES fs).

Definition finish_trace (base_img b : image) : list event :=
  [Print "
生成不同尺寸的 PNG..."]
  ++ (SIZES ≫= resize_events base_img)
  ++ [Print "
生成 Windows ICO 文件..."]
  ++ ((SIZES ≫= λ size, [Exists (png_path d size) true; ImageOpen (png_path d size)])
      ++ [SaveIco (ico_path d) (variant base_img 16) (size <$> ico_images_of base_img b);
          Print "  ✓ icon.ico"])
  ++ report_trace.

(** [main] up to the point where packaging starts (lines 45-70). *)
Definition upto_packaging : M unit :=
  os_chdir d;;
  base_img ← acquire_base d;
  print "
生成不同尺寸的 PNG...";;
  resize_loop d base_img SIZES;;
  print "
生成 Windows ICO 文件...".

(** The three ways a run of [main] can go. *)
Inductive main_case (fs : gmap string file) : Prop :=
| drawn_case :
    fs !! base_image_path d = None →
    main d fs =
      Run (Returned ())
        (finish_disk simple_icon simple_icon
           (<[base_image_path d := picture simple_icon]> fs))
        (Chdir d :: synthesis_trace ++ finish_trace simple_icon simple_icon) →
    main_case fs
| loaded_case f im :
    fs !! base_image_path d = Some f → decode f = Some im →
    main d fs =
      Run (Returned ()) (finish_disk im im fs)
          (Chdir d :: load_trace ++ finish_trace im im) →
    main_case fs
| unreadable_case f :
    fs !! base_image_path d = Some f → decode f = None →
    main d fs =
      Run (Raised (UnidentifiedImageError (base_image_path d))) fs
          (Chdir d :: load_trace) →
    main_case fs.

(** The paths [main] may write: the six per-size files (the base picture's
    own file is the one for 256) and the container. *)
Definition output_paths : list string :=
  (png_path d <$> SIZES) ++ [ico_path d].

End Expected.

(** Drawing a new picture, as opposed to loading one. *)
Definition is_synthesis (e : event) : Prop :=
  match e with
  | ImageNew _ _ _ | Draw _ => True
  | _ => False
  end.

(** Writing a file. *)
Definition writes_to (path : string) (e : event) : Prop :=
  match e with
  | Save p _ | SaveIco p _ _ => p = path
  | _ => False
  end.

Definition is_resize (e : event) : Prop :=
  match e with
  | Resize _ _ _ => True
  | _ => False
  end.

(** The sizes a log asks resizes for, and the paths it saves to, in the
    order of the calls. *)
Definition resize_targets (log : list event) : list (positive * positive) :=
  omap (λ e, match e with Resize _ sz _ => Some sz | _ => None end) log.

Definition written_paths (log : list event) : list string :=
  omap (λ e, match e with
             | Save p _ | SaveIco p _ _ => Some p
             | _ => None
             end) log.

(** A directory to run the script in, and a starting state whose base
    picture is not 256 x 256. *)
Definition assets : string := "/app/assets".

Definition oversized_base : image :=
  {| mode := "RGBA"; size := (512, 512); pixels := stored 0 |}.

Definition fs_oversized : gmap string file :=
  {[ base_image_path assets := picture oversized_base ]}.

(** A stale, unreadable per-size file next to no base picture. *)
Definition fs_stale : gmap string file :=
  {[ png_path assets 16 := unreadable ]}.

(** The order [sorted] puts sizes in, as a relation. *)
Definition lt_size (a b : positive * positive) : Prop := size_lt a b = true.

(** A size that fits in 16 x 16 without being 16 x 16. *)
Definition smaller_than_16 (s : positive * positive) : bool :=
  bool_decide (s.1 ≤ 16)%positive && bool_decide (s.2 ≤ 16)%positive
  && negb (bool_decide (s = (16, 16))).

(** ** Paths *)

Lemma string_app_length (s t : string) :
  String.length (s +:+ t) = (String.length s + String.length t)%nat.
Proof. induction s as [|a s IH]; simpl; [done | by rewrite IH]. Qed.

Lemma string_app_inj_r (x s t : string) : s +:+ x = t +:+ x → s = t.
Proof.
  revert t. induction s as [|a s IH]; intros [|b t] H; simpl in *.
  - done.
  - apply (f_equal String.length) in H.
    rewrite ?string_app_length in H; simpl in H.
    rewrite ?string_app_length in H; lia.
  - apply (f_equal String.length) in H.
    rewrite ?string_app_length in H; simpl in H.
    rewrite ?string_app_length in H; lia.
  - injection H as -> H. f_equal. by apply IH.
Qed.

Section Paths.
Context (d : string).

Lemma in_script_dir_inj (a b : string) :
  in_script_dir d a = in_script_dir d b → a = b.
Proof.
  unfold in_script_dir. intros H.
  apply (inj (String.app d)) in H. by apply (inj (String.app "/")) in H.
Qed.

Lemma png_name_inj (s t : positive) : png_name s = png_name t → s = t.
Proof.
  unfold png_name. intros H.
  apply (inj (String.app "icon-")) in H.
  apply string_app_inj_r in H. by apply (inj pretty) in H.
Qed.

Lemma png_path_inj (s t : positive) : png_path d s = png_path d t → s = t.
Proof. intros H. by apply png_name_inj, in_script_dir_inj. Qed.

Lemma base_image_path_png : base_image_path d = png_path d 256.
Proof. reflexivity. Qed.

Lemma ico_path_not_png (s : positive) : ico_path d ≠ png_path d s.
Proof.
  intros H. apply in_script_dir_inj in H. unfold png_name in H.
  change "icon.ico" with ("icon" +:+ ".ico") in H.
  change ("icon-" +:+ pretty s +:+ ".png") with ("icon" +:+ "-" +:+ pretty s +:+ ".png") in H.
  apply (inj (String.app "icon")) in H. discriminate H.
Qed.

End Paths.

(** ** Running computations *)

Lemma run_bind {A B} (m : M A) (k : A → M B) fs a fs1 t1 :
  m fs = Run (Returned a) fs1 t1 →
  (m ≫= k) fs = Run (res (k a fs1)) (disk (k a fs1)) (t1 ++ trace (k a fs1)).
Proof. unfold mbind, M_bind, bind. by intros ->. Qed.

Lemma run_bind_raised {A B} (m : M A) (k : A → M B) fs e fs1 t1 :
  m fs = Run (Raised e) fs1 t1 →
  (m ≫= k) fs = Run (Raised e) fs1 t1.
Proof. unfold mbind, M_bind, bind. by intros ->. Qed.

(** ** Acquisition of the base picture *)

Section Acquisition.
Context (d : string).

Lemma create_simple_icon_run fs :
  create_simple_icon fs = Run (Returned simple_icon) fs drawing_trace.
Proof. reflexivity. Qed.

Lemma acquire_base_absent fs :
  fs !! base_image_path d = None →
  acquire_base d fs =
    Run (Returned simple_icon) (<[base_image_path d := picture simple_icon]> fs)
        (synthesis_trace d).
Proof.
  intros H. unfold acquire_base, mbind, M_bind, bind, path_exists.
  cbn [res disk trace]. rewrite H. reflexivity.
Qed.

Lemma acquire_base_present fs f :
  fs !! base_image_path d = Some f →
  acquire_base d fs =
    Run (match decode f with
         | Some im => Returned im
         | None => Raised (UnidentifiedImageError (base_image_path d))
         end) fs (load_trace d).
Proof.
  intros H. unfold acquire_base, mbind, M_bind, bind, path_exists, Image_open.
  cbn [res disk trace]. rewrite H. cbn. rewrite !H.
  destruct (decode f); reflexivity.
Qed.

End Acquisition.

(** ** The resize loop *)

Section ResizeLoop.
Context (d : string).

Lemma resize_loop_run base_img sizes fs :
  resize_loop d base_img sizes fs =
    Run (Returned ()) (write_variants d base_img sizes fs)
        (sizes ≫= resize_events d base_img).
Proof.
  revert fs. induction sizes as [|size rest IH]; intros fs; [done|].
  cbn [resize_loop write_variants]. rewrite bind_cons.
  unfold resize_events at 1.
  case_bool_decide as Hs; [by rewrite IH|].
  unfold Image_resize, Image_save, print, emit, mbind, M_bind, bind.
  cbn [res disk trace mret M_ret ret].
  rewrite IH. reflexivity.
Qed.

Lemma write_variants_other base_img sizes fs p :
  (∀ size, size ∈ sizes → size ≠ 256 → p ≠ png_path d size) →
  write_variants d base_img sizes fs !! p = fs !! p.
Proof.
  revert fs. induction sizes as [|size rest IH]; intros fs Hp; [done|].
  cbn [write_variants]. case_bool_decide as Hs.
  - apply IH. intros s ?. apply Hp. by right.
  - rewrite IH by (intros s ?; apply Hp; by right).
    apply lookup_insert_ne. intros E. by apply (Hp size); [left| |].
Qed.

Lemma write_variants_kept base_img sizes fs size :
  size ≠ 256 →
  size ∈ sizes ∨ fs !! png_path d size = Some (picture (variant base_img size)) →
  write_variants d base_img sizes fs !! png_path d size
  = Some (picture (variant base_img size)).
Proof.
  intros Hn. revert fs. induction sizes as [|s rest IH]; intros fs H.
  - destruct H as [H|H]; [by apply elem_of_nil in H | done].
  - cbn [write_variants]. case_bool_decide as Hs.
    + apply IH. destruct H as [H|H]; [|by right].
      apply elem_of_cons in H as [->|H]; [done | by left].
    + apply IH. destruct (decide (s = size)) as [->|Hne].
      * right. apply lookup_insert_eq.
      * destruct H as [H|H].
        -- apply elem_of_cons in H as [->|H]; [done | by left].
        -- right. rewrite lookup_insert_ne; [done|].
           intros E. by apply png_path_inj in E.
Qed.

Lemma write_variants_elem base_img sizes fs size :
  size ∈ sizes → size ≠ 256 →
  write_variants d base_img sizes fs !! png_path d size
  = Some (picture (variant base_img size)).
Proof. intros. apply write_variants_kept; [done | by left]. Qed.

(** The loop never touches the base picture's file. *)
Lemma write_variants_base base_img sizes fs :
  write_variants d base_img sizes fs !! base_image_path d = fs !! base_image_path d.
Proof.
  apply write_variants_other. intros size _ Hn E.
  rewrite base_image_path_png in E. by apply png_path_inj in E.
Qed.

Lemma write_variants_ico base_img sizes fs :
  write_variants d base_img sizes fs !! ico_path d = fs !! ico_path d.
Proof. apply write_variants_other. intros size _ _. apply ico_path_not_png. Qed.

End ResizeLoop.

(** ** Packaging *)

Section Packaging.
Context (d : string).

Lemma collect_loop_disk sizes ico_images fs :
  disk (collect_loop d sizes ico_images fs) = fs.
Proof.
  revert ico_images. induction sizes as [|size rest IH]; intros acc; [done|].
  cbn [collect_loop]. unfold path_exists, Image_open, mbind, M_bind, bind.
  cbn [res disk trace].
  destruct (fs !! png_path d size) as [f|] eqn:E; cbn; rewrite ?E; cbn.
  - destruct (decode f); cbn; [apply IH | done].
  - apply IH.
Qed.

Lemma collect_loop_run sizes ico_images fs :
  (∀ size f, size ∈ sizes → fs !! png_path d size = Some f → is_Some (decode f)) →
  collect_loop d sizes ico_images fs =
    Run (Returned (ico_images ++ collected d fs sizes)%list) fs
        (sizes ≫= collect_events d fs).
Proof.
  revert ico_images. induction sizes as [|size rest IH]; intros acc Hdec.
  { cbn. by rewrite app_nil_r. }
  cbn [collect_loop]. rewrite bind_cons. unfold collected. cbn [omap list_omap].
  fold (collected d fs rest). unfold collect_events at 1.
  unfold path_exists, Image_open, mbind at 1 2, M_bind, bind.
  cbn [res disk trace].
  destruct (fs !! png_path d size) as [f|] eqn:E; cbn; rewrite ?E; cbn.
  - destruct (Hdec size f) as [im Him]; [by left | done |].
    rewrite Him. cbn. rewrite IH by (intros s g ?; apply Hdec; by right).
    cbn. by rewrite <- app_assoc.
  - rewrite IH by (intros s g ?; apply Hdec; by right). done.
Qed.

Lemma package_run fs :
  (∀ size f, size ∈ SIZES → fs !! png_path d size = Some f → is_Some (decode f)) →
  package d fs =
    Run (Returned ()) (packed d fs (collected d fs SIZES))
        ((SIZES ≫= collect_events d fs) ++ pack_events d (collected d fs SIZES)).
Proof.
  intros Hdec. unfold package.
  rewrite (run_bind _ _ _ _ _ _ (collect_loop_run SIZES [] fs Hdec)).
  rewrite app_nil_l. destruct (collected d fs SIZES) as [|first rest]; [done|].
  reflexivity.
Qed.

End Packaging.

(** ** The whole run *)

Lemma run_seq {A B} (m : M A) (k : A → M B) fs a fs1 t1 o fs2 t2 :
  m fs = Run (Returned a) fs1 t1 →
  k a fs1 = Run o fs2 t2 →
  (m ≫= k) fs = Run o fs2 (t1 ++ t2).
Proof.
  intros Hm Hk. unfold mbind, M_bind, bind. rewrite Hm. cbn [res disk trace].
  by rewrite Hk.
Qed.

Lemma print_run line fs : print line fs = Run (Returned ()) fs [Print line].
Proof. reflexivity. Qed.

Lemma os_chdir_run dir fs : os_chdir dir fs = Run (Returned ()) fs [Chdir dir].
Proof. reflexivity. Qed.

Section Main.
Context (d : string).

Lemma report_run fs : report d fs = Run (Returned ()) fs (report_trace d).
Proof. reflexivity. Qed.

Lemma collected_ext (g : positive → image) fs sizes :
  (∀ size, size ∈ sizes → fs !! png_path d size ≫= decode = Some (g size)) →
  collected d fs sizes = g <$> sizes.
Proof.
  induction sizes as [|size rest IH]; intros H; [done|].
  unfold collected. cbn [omap list_omap]. fold (collected d fs rest).
  rewrite (H size) by left. rewrite IH by (intros s ?; apply H; by right). done.
Qed.

Lemma collect_events_ext fs sizes :
  (∀ size, size ∈ sizes → is_Some (fs !! png_path d size)) →
  sizes ≫= collect_events d fs
  = sizes ≫= λ size, [Exists (png_path d size) true; ImageOpen (png_path d size)].
Proof.
  induction sizes as [|size rest IH]; intros H; [done|].
  rewrite !bind_cons, IH by (intros s ?; apply H; by right).
  f_equal. unfold collect_events. by destruct (H size) as [f ->]; [left|].
Qed.

Lemma main_unfold fs :
  main d fs = (os_chdir d;; base_img ← acquire_base d; finish d base_img) fs.
Proof. reflexivity. Qed.

Lemma lookup_variants_SIZES base_img b fs size :
  fs !! base_image_path d ≫= decode = Some b →
  size ∈ SIZES →
  write_variants d base_img SIZES fs !! png_path d size ≫= decode
  = Some (found_for base_img b size).
Proof.
  intros Hb Hin. unfold found_for. case_bool_decide as Hs.
  - subst size. by rewrite <- base_image_path_png, write_variants_base.
  - by rewrite write_variants_elem.
Qed.

Lemma finish_run base_img b fs :
  fs !! base_image_path d ≫= decode = Some b →
  finish d base_img fs =
    Run (Returned ()) (finish_disk d base_img b fs) (finish_trace d base_img b).
Proof.
  intros Hb.
  pose proof (lookup_variants_SIZES base_img b fs) as Hl.
  set (fs2 := write_variants d base_img SIZES fs) in *.
  assert (Hdec : ∀ size f, size ∈ SIZES →
            fs2 !! png_path d size = Some f → is_Some (decode f)).
  { intros size f Hin Hf. specialize (Hl size Hb Hin). rewrite Hf in Hl. by eexists. }
  assert (Hc : collected d fs2 SIZES = ico_images_of base_img b).
  { apply collected_ext. intros size Hin. by apply Hl. }
  assert (He : SIZES ≫= collect_events d fs2
               = SIZES ≫= λ size, [Exists (png_path d size) true;
                                   ImageOpen (png_path d size)]).
  { apply collect_events_ext. intros size Hin. specialize (Hl size Hb Hin).
    by destruct (fs2 !! png_path d size). }
  unfold finish, finish_trace, finish_disk.
  eapply run_seq; [apply print_run|].
  eapply run_seq; [apply resize_loop_run|].
  eapply run_seq; [apply print_run|].
  eapply run_seq; [|apply report_run].
  fold fs2. rewrite (package_run d fs2 Hdec), Hc, He. reflexivity.
Qed.

(** A run of [main] whose acquisition phase returns. *)
Lemma main_run base_img fs fs1 t :
  acquire_base d fs = Run (Returned base_img) fs1 t →
  fs1 !! base_image_path d ≫= decode = Some base_img →
  main d fs =
    Run (Returned ()) (finish_disk d base_img base_img fs1)
        (Chdir d :: t ++ finish_trace d base_img base_img).
Proof.
  intros Ha Hb. rewrite main_unfold.
  change (Chdir d :: ?l)%list with ([Chdir d] ++ l)%list.
  eapply run_seq; [apply os_chdir_run|].
  eapply run_seq; [exact Ha | by apply finish_run].
Qed.

(** A run of [main] whose acquisition phase raises. *)
Lemma main_run_raised e fs fs1 t :
  acquire_base d fs = Run (Raised e) fs1 t →
  main d fs = Run (Raised e) fs1 (Chdir d :: t).
Proof.
  intros Ha. rewrite main_unfold.
  change (Chdir d :: t)%list with ([Chdir d] ++ t)%list.
  eapply run_seq; [apply os_chdir_run|]. by apply run_bind_raised.
Qed.

(** Starting without a base picture. *)
Lemma main_absent fs :
  fs !! base_image_path d = None →
  main d fs =
    Run (Returned ())
        (finish_disk d simple_icon simple_icon
           (<[base_image_path d := picture simple_icon]> fs))
        (Chdir d :: synthesis_trace d ++ finish_trace d simple_icon simple_icon).
Proof.
  intros H. apply main_run; [by apply acquire_base_absent|].
  by rewrite lookup_insert_eq.
Qed.

(** Starting with a file at the base path. *)
Lemma main_present fs f im :
  fs !! base_image_path d = Some f → decode f = Some im →
  main d fs =
    Run (Returned ()) (finish_disk d im im fs)
        (Chdir d :: load_trace d ++ finish_trace d im im).
Proof.
  intros H Hd. apply main_run.
  - by rewrite (acquire_base_present d fs f H), Hd.
  - by rewrite H.
Qed.

Lemma main_unreadable fs f :
  fs !! base_image_path d = Some f → decode f = None →
  main d fs =
    Run (Raised (UnidentifiedImageError (base_image_path d))) fs
        (Chdir d :: load_trace d).
Proof.
  intros H Hd. apply main_run_raised.
  by rewrite (acquire_base_present d fs f H), Hd.
Qed.

End Main.

(** ** Laws of sequencing, pointwise *)

Lemma bind_assoc_run {A B C} (m : M A) (k : A → M B) (h : B → M C) fs :
  ((m ≫= k) ≫= h) fs = (m ≫= λ a, k a ≫= h) fs.
Proof.
  unfold mbind, M_bind, bind.
  destruct (res (m fs)) as [a|e]; cbn [res disk trace]; [|done].
  destruct (res (k a (disk (m fs)))) as [b|e]; cbn [res disk trace]; [|done].
  by rewrite app_assoc.
Qed.

Lemma bind_ext_run {A B} (m : M A) (k k' : A → M B) fs :
  (∀ a fs', k a fs' = k' a fs') → (m ≫= k) fs = (m ≫= k') fs.
Proof.
  intros H. unfold mbind, M_bind, bind.
  destruct (res (m fs)) as [a|e]; [by rewrite H | done].
Qed.

(** ** What the traces contain *)

Ltac split_elem H :=
  repeat match type of H with
    | _ ∈ [] => by apply elem_of_nil in H
    | _ ∈ _ :: _ => apply elem_of_cons in H as [H|H]
    | _ ∈ (_ ++ _)%list => apply elem_of_app in H as [H|H]
    end.

Section Traces.
Context (d : string).

Lemma resize_events_elem base_img sizes e :
  e ∈ sizes ≫= resize_events d base_img →
  ∃ size, size ∈ sizes ∧ size ≠ 256 ∧
    (e = Resize base_img (size, size) LANCZOS
     ∨ e = Save (png_path d size) (variant base_img size)
     ∨ e = Print ("  ✓ icon-" +:+ pretty size +:+ ".png")).
Proof.
  intros (size & He & Hin)%list_elem_of_bind. exists size.
  unfold resize_events in He. case_bool_decide; [by apply elem_of_nil in He|].
  split_elem He; subst; eauto.
Qed.

Lemma resize_events_intro base_img sizes size :
  size ∈ sizes → size ≠ 256 →
  Resize base_img (size, size) LANCZOS ∈ sizes ≫= resize_events d base_img
  ∧ Save (png_path d size) (variant base_img size) ∈ sizes ≫= resize_events d base_img.
Proof.
  intros Hin Hn. split; apply list_elem_of_bind; exists size; (split; [|done]);
    unfold resize_events; rewrite bool_decide_false by done; set_solver.
Qed.

Lemma synthesis_trace_elem e :
  e ∈ synthesis_trace d →
  ¬ is_resize e ∧ (∀ p, writes_to p e → p = base_image_path d ∧ e = Save p simple_icon).
Proof.
  unfold synthesis_trace, drawing_trace, icon_shapes. cbn [fmap list_fmap].
  intros H.
  split_elem H; subst e; (split; [by intros [] | intros p Hp; cbn in Hp; try done]).
  by subst p.
Qed.

Lemma load_trace_elem e :
  e ∈ load_trace d → ¬ is_resize e ∧ ¬ is_synthesis e ∧ ∀ p, ¬ writes_to p e.
Proof.
  unfold load_trace. intros H.
  split_elem H; subst e; (split; [|split]); try (by intros []); by intros p [].
Qed.

(** After acquisition: the only resizes are those of the loop, from the
    base picture; nothing is drawn; the base picture's file is not
    written. *)
Lemma finish_trace_elem base_img b e :
  e ∈ finish_trace d base_img b →
  (is_resize e → ∃ size, size ∈ SIZES ∧ size ≠ 256
                 ∧ e = Resize base_img (size, size) LANCZOS)
  ∧ ¬ is_synthesis e
  ∧ ¬ writes_to (base_image_path d) e.
Proof.
  unfold finish_trace. intros H. split_elem H.
  - subst e. by repeat split; intros [].
  - apply resize_events_elem in H as (size & Hin & Hn & [->| [->| ->]]).
    + repeat split; [by eauto | by intros [] |by intros []].
    + repeat split; [by intros [] | by intros [] |].
      cbn. rewrite base_image_path_png. intros E. by apply png_path_inj in E.
    + by repeat split; intros [].
  - subst e. by repeat split; intros [].
  - apply list_elem_of_bind in H as (size & H & _).
    split_elem H; subst e; by repeat split; intros [].
  - subst e. repeat split; [by intros [] | by intros [] |].
    cbn. rewrite base_image_path_png. apply ico_path_not_png.
  - subst e. by repeat split; intros [].
  - unfold report_trace in H. split_elem H; subst e; by repeat split; intros [].
Qed.

End Traces.

(** ** The run up to packaging *)

Section Prefix.
Context (d : string).

Lemma main_split fs :
  main d fs = (upto_packaging d;; package d;; report d) fs.
Proof.
  unfold main, upto_packaging.
  rewrite bind_assoc_run. apply bind_ext_run. intros _ fs1.
  rewrite bind_assoc_run. apply bind_ext_run. intros base_img fs2.
  rewrite bind_assoc_run. apply bind_ext_run. intros _ fs3.
  rewrite bind_assoc_run. apply bind_ext_run. intros _ fs4.
  reflexivity.
Qed.

(** When acquisition returns, the picture in memory is the one on disk. *)
Lemma acquire_base_on_disk fs base_img :
  res (acquire_base d fs) = Returned base_img →
  disk (acquire_base d fs) !! base_image_path d ≫= decode = Some base_img.
Proof.
  destruct (fs !! base_image_path d) as [f|] eqn:E.
  - rewrite (acquire_base_present d fs f E). cbn [res disk]. rewrite E. cbn.
    destruct (decode f); [by intros [= ->] | done].
  - rewrite (acquire_base_absent d fs E). cbn [res disk].
    intros [= <-]. by rewrite lookup_insert_eq.
Qed.

Lemma upto_packaging_run fs base_img fs1 t :
  acquire_base d fs = Run (Returned base_img) fs1 t →
  upto_packaging d fs =
    Run (Returned ()) (write_variants d base_img SIZES fs1)
        ([Chdir d] ++ t ++ [Print "
生成不同尺寸的 PNG..."] ++ (SIZES ≫= resize_events d base_img)
         ++ [Print "
生成 Windows ICO 文件..."]).
Proof.
  intros Ha. unfold upto_packaging.
  eapply run_seq; [apply os_chdir_run|].
  eapply run_seq; [exact Ha|].
  eapply run_seq; [apply print_run|].
  eapply run_seq; [apply resize_loop_run|].
  apply print_run.
Qed.

Lemma upto_packaging_raised fs e fs1 t :
  acquire_base d fs = Run (Raised e) fs1 t →
  upto_packaging d fs = Run (Raised e) fs1 ([Chdir d] ++ t).
Proof.
  intros Ha. unfold upto_packaging.
  eapply run_seq; [apply os_chdir_run|]. by apply run_bind_raised.
Qed.

End Prefix.

(** ** Files after the run *)

Section Results.
Context (d : string).

Lemma finish_disk_variant base_img b fs size :
  size ∈ SIZES → size ≠ 256 →
  finish_disk d base_img b fs !! png_path d size
  = Some (picture (variant base_img size)).
Proof.
  intros Hin Hn. unfold finish_disk.
  rewrite lookup_insert_ne by apply ico_path_not_png.
  by apply write_variants_elem.
Qed.

Lemma finish_disk_base base_img b fs :
  finish_disk d base_img b fs !! base_image_path d = fs !! base_image_path d.
Proof.
  unfold finish_disk. rewrite base_image_path_png at 1.
  rewrite lookup_insert_ne by apply ico_path_not_png.
  rewrite <- base_image_path_png. apply write_variants_base.
Qed.

Lemma finish_disk_ico base_img b fs :
  finish_disk d base_img b fs !! ico_path d = Some (container_of base_img b).
Proof. apply lookup_insert_eq. Qed.

Lemma main_cases fs : main_case d fs.
Proof.
  destruct (fs !! base_image_path d) as [f|] eqn:E.
  - destruct (decode f) as [im|] eqn:Ed.
    + eapply loaded_case; eauto using main_present.
    + eapply unreadable_case; eauto using main_unreadable.
  - apply drawn_case; auto using main_absent.
Qed.

(** Every event of a run, sorted by where it comes from. *)
Lemma main_trace_elem fs e :
  e ∈ trace (main d fs) →
  e = Chdir d
  ∨ (fs !! base_image_path d = None
     ∧ (e ∈ synthesis_trace d ∨ e ∈ finish_trace d simple_icon simple_icon))
  ∨ (∃ f, fs !! base_image_path d = Some f
     ∧ (e ∈ load_trace d ∨ ∃ im, decode f = Some im ∧ e ∈ finish_trace d im im)).
Proof.
  destruct (main_cases fs) as [E ->|f im E Ed ->|f E Ed ->]; cbn [trace]; intros H.
  - apply elem_of_cons in H as [->|H]; [by left|].
    apply elem_of_app in H. right; left. done.
  - apply elem_of_cons in H as [->|H]; [by left|].
    apply elem_of_app in H as [H|H]; right; right; exists f; eauto.
  - apply elem_of_cons in H as [->|H]; [by left|].
    right; right; exists f; eauto.
Qed.

Lemma collected_none fs sizes :
  (∀ size, size ∈ sizes → fs !! png_path d size = None) →
  collected d fs sizes = []
  ∧ sizes ≫= collect_events d fs = (λ size, Exists (png_path d size) false) <$> sizes.
Proof.
  induction sizes as [|size rest IH]; intros H; [done|].
  destruct IH as [IH1 IH2]; [intros s ?; apply H; by right|].
  unfold collected in *. cbn [omap list_omap]. rewrite bind_cons, fmap_cons.
  unfold collect_events at 1. rewrite (H size) by left. cbn.
  by rewrite IH1, IH2.
Qed.

(** What the ICO writer keeps of the six sizes when the picture it is
    given is 16 x 16. *)
Lemma ico_frames_16 (im : image) :
  size im = (16, 16) →
  ico_frames im [(16, 16); (32, 32); (48, 48); (64, 64); (128, 128); (256, 256)]
  = [im].
Proof.
  destruct im as [m sz px]. cbn [size]. intros ->. vm_compute. reflexivity.
Qed.

Lemma container_of_simple_icon :
  container_of simple_icon simple_icon = icon_container [variant simple_icon 16].
Proof. vm_compute. reflexivity. Qed.

End Results.

(** ** The properties the specification states *)

(** C7: when the imaging library cannot be imported the script prints a
    two-line message that says what to install, and exits with status 1;
    nothing else happens: no drawing, no file is looked at or written. *)
Theorem missing_pillow_exits_at_startup (d : string) (fs : gmap string file) :
  script d false fs =
    Run (Raised (SystemExit 1)) fs
        [Print "错误: 需要安装 Pillow"; Print "运行: pip install Pillow"]
  ∧ exit_status (res (script d false fs)) = 1%Z
  ∧ exit_status (res (script d false fs)) ≠ 0%Z.
Proof. split; [reflexivity|]. split; [reflexivity | done]. Qed.

(** C8: when none of the per-size files is on disk at packaging time, the
    packaging loop collects nothing, packaging returns without writing
    anything (so no container appears) and without raising, and the rest of
    the run ends with exit status 0. *)
Theorem empty_packaging_is_skipped (d : string) (fs : gmap string file) :
  (∀ size, size ∈ SIZES → fs !! png_path d size = None) →
  collect_loop d SIZES [] fs
  = Run (Returned []) fs ((λ size, Exists (png_path d size) false) <$> SIZES)
  ∧ package d fs
    = Run (Returned ()) fs ((λ size, Exists (png_path d size) false) <$> SIZES)
  ∧ disk ((package d;; report d) fs) !! ico_path d = fs !! ico_path d
  ∧ exit_status (res ((package d;; report d) fs)) = 0%Z.
Proof.
  intros Hnone.
  destruct (collected_none d fs SIZES Hnone) as [Hc He].
  assert (Hdec : ∀ size f, size ∈ SIZES →
            fs !! png_path d size = Some f → is_Some (decode f)).
  { intros size f Hin Hf. by rewrite Hnone in Hf. }
  assert (Hp : package d fs
               = Run (Returned ()) fs
                   ((λ size, Exists (png_path d size) false) <$> SIZES)).
  { rewrite (package_run d fs Hdec), Hc, He. cbn [packed pack_events].
    by rewrite app_nil_r. }
  split; [|split; [exact Hp|]].
  - rewrite (collect_loop_run d SIZES [] fs Hdec), Hc, He. done.
  - rewrite (run_seq _ _ _ _ _ _ _ _ _ Hp (report_run d fs)). done.
Qed.

Lemma empty_packaging_is_skipped_witness :
  (∀ size, size ∈ SIZES → (∅ : gmap string file) !! png_path assets size = None)
  ∧ package assets ∅
    = Run (Returned ()) ∅ ((λ size, Exists (png_path assets size) false) <$> SIZES).
Proof.
  assert (H : ∀ size, size ∈ SIZES →
            (∅ : gmap string file) !! png_path assets size = None)
    by (intros; apply lookup_empty).
  split; [exact H|]. exact (proj1 (proj2 (empty_packaging_is_skipped assets ∅ H))).
Defined.

(** C9: for every size of the list other than 256, a resize loop that runs
    to its end has asked the library for a [size] x [size] copy of the base
    picture with the LANCZOS filter and has saved that copy under the name
    built from the size, where it then is.  Whether or not the loop gets to
    its end, every resize it asks for is of the base picture, with LANCZOS,
    to a square of one of these sizes; every file it saves is such a copy,
    at the path of its size; and different sizes have different paths. *)
Theorem resize_loop_writes_lanczos_variants
    (d : string) (base_img : image) (fs : gmap string file) (size : positive) :
  size ∈ SIZES → size ≠ 256 →
  let r := resize_loop d base_img SIZES fs in
  let resized := resize base_img (size, size) LANCZOS in
  (res r = Returned () →
     Resize base_img (size, size) LANCZOS ∈ trace r
     ∧ Save (png_path d size) resized ∈ trace r
     ∧ disk r !! png_path d size = Some (picture resized))
  ∧ Pillow.size resized = (size, size)
  ∧ png_path d size = in_script_dir d ("icon-" +:+ pretty size +:+ ".png")
  ∧ (∀ size', png_path d size' = png_path d size → size' = size)
  ∧ (∀ src sz f, Resize src sz f ∈ trace r →
       src = base_img ∧ f = LANCZOS
       ∧ ∃ s, s ∈ SIZES ∧ s ≠ 256 ∧ sz = (s, s))
  ∧ (∀ p im, Save p im ∈ trace r →
       ∃ s, s ∈ SIZES ∧ s ≠ 256 ∧ p = png_path d s
            ∧ im = resize base_img (s, s) LANCZOS).
Proof.
  intros Hin Hn r resized. subst r resized. rewrite resize_loop_run.
  cbn [res disk trace].
  destruct (resize_events_intro d base_img SIZES size Hin Hn) as [Hr Hs].
  split_and!; try done.
  - intros _. split_and!; [done..|]. by apply write_variants_elem.
  - intros size' E. by apply png_path_inj in E.
  - intros src sz f H.
    apply resize_events_elem in H as (s & ? & ? & [H| [H|H]]); simplify_eq.
    split_and!; [done..|]. by exists s.
  - intros p im H.
    apply resize_events_elem in H as (s & ? & ? & [H| [H|H]]); simplify_eq.
    by exists s.
Qed.

Lemma resize_loop_writes_lanczos_variants_witness :
  48 ∈ SIZES ∧ 48 ≠ 256
  ∧ res (resize_loop assets simple_icon SIZES ∅) = Returned ()
  ∧ disk (resize_loop assets simple_icon SIZES ∅) !! png_path assets 48
    = Some (picture (resize simple_icon (48, 48) LANCZOS)).
Proof.
  assert (Hin : 48 ∈ SIZES) by (unfold SIZES; set_solver).
  assert (Hn : 48 ≠ 256) by done.
  assert (Hr : res (resize_loop assets simple_icon SIZES ∅) = Returned ())
    by (by rewrite resize_loop_run).
  split; [exact Hin|]. split; [exact Hn|]. split; [exact Hr|].
  exact (proj2 (proj2 (proj1
    (resize_loop_writes_lanczos_variants assets simple_icon ∅ 48 Hin Hn) Hr))).
Defined.

(** C4: no run ever asks for a resize to 256 x 256, whatever is on disk
    when it starts; and whenever the run gets as far as packaging, a file
    for size 256 is on disk under the name the other sizes use. *)
Theorem native_size_is_never_resized (d : string) (fs : gmap string file) :
  (∀ src f, Resize src (256, 256) f ∉ trace (main d fs))
  ∧ main d fs = (upto_packaging d;; package d;; report d) fs
  ∧ (res (upto_packaging d fs) = Returned () →
     is_Some (disk (upto_packaging d fs) !! png_path d 256))
  ∧ png_path d 256 = d +:+ "/" +:+ "icon-" +:+ pretty 256 +:+ ".png".
Proof.
  split_and!; [|apply main_split| |done].
  - intros src f H.
    apply main_trace_elem in H as [H|[[_ [H|H]]|(f0 & _ & [H|(im & _ & H)])]].
    + done.
    + by apply synthesis_trace_elem in H as [[] _].
    + apply finish_trace_elem in H as [H _].
      destruct H as (size & _ & Hn & H); [done|]. by simplify_eq.
    + by apply load_trace_elem in H as [[] _].
    + apply finish_trace_elem in H as [H _].
      destruct H as (size & _ & Hn & H); [done|]. by simplify_eq.
  - destruct (acquire_base d fs) as [[base_img|e] fs1 t] eqn:Ha.
    + rewrite (upto_packaging_run d fs base_img fs1 t Ha). cbn [res disk].
      intros _. rewrite <- base_image_path_png, write_variants_base.
      pose proof (acquire_base_on_disk d fs base_img) as Hd.
      rewrite Ha in Hd. cbn [res disk] in Hd. specialize (Hd eq_refl).
      destruct (fs1 !! base_image_path d); [by eexists | done].
    + by rewrite (upto_packaging_raised d fs e fs1 t Ha).
Qed.

(** C5: when a file is at the base path at the start, acquisition leaves
    the disk as it was and writes nothing; the picture it returns is the
    one the file decodes to; the whole run never writes to the base path,
    so the file is the same at the end; and every resize of the run has
    that decoded picture as its source. *)
Theorem existing_base_is_read_only
    (d : string) (fs : gmap string file) (f : file) :
  fs !! base_image_path d = Some f →
  disk (acquire_base d fs) = fs
  ∧ (∀ e p, e ∈ trace (acquire_base d fs) → ¬ writes_to p e)
  ∧ (∀ base_img, res (acquire_base d fs) = Returned base_img →
       decode f = Some base_img)
  ∧ disk (main d fs) !! base_image_path d = Some f
  ∧ (∀ e, e ∈ trace (main d fs) → ¬ writes_to (base_image_path d) e)
  ∧ (∀ src sz flt, Resize src sz flt ∈ trace (main d fs) →
       decode f = Some src ∧ flt = LANCZOS).
Proof.
  intros Hf. rewrite (acquire_base_present d fs f Hf). cbn [res disk trace].
  split_and!.
  - done.
  - intros e p H. by apply load_trace_elem in H as (_ & _ & H).
  - intros base_img. by destruct (decode f); intros [= ->].
  - destruct (main_cases d fs) as [E _|f' im E Ed ->|f' E Ed ->]; simplify_eq.
    + cbn [disk]. by rewrite finish_disk_base.
    + done.
  - intros e H.
    apply main_trace_elem in H as [->|[[E _]|(f0 & _ & [H|(im & _ & H)])]].
    + by intros [].
    + by simplify_eq.
    + by apply load_trace_elem in H as (_ & _ & H).
    + by apply finish_trace_elem in H as (_ & _ & H).
  - intros src sz flt H.
    apply main_trace_elem in H as [H|[[E _]|(f0 & E & [H|(im & Ed & H)])]].
    + done.
    + by simplify_eq.
    + by apply load_trace_elem in H as [[] _].
    + apply finish_trace_elem in H as [H _].
      destruct H as (size & _ & _ & H); [done|]. by simplify_eq.
Qed.

Lemma existing_base_is_read_only_witness :
  fs_oversized !! base_image_path assets = Some (picture oversized_base)
  ∧ disk (main assets fs_oversized) !! base_image_path assets
    = Some (picture oversized_base).
Proof.
  assert (H : fs_oversized !! base_image_path assets = Some (picture oversized_base))
    by apply lookup_singleton_eq.
  split; [exact H|].
  exact (proj1 (proj2 (proj2 (proj2
    (existing_base_is_read_only assets fs_oversized _ H))))).
Defined.

(** C6: starting without a base picture, the first run draws one, saves
    it at the base path as a 256 x 256 picture and completes; a second run
    from the disk the first one left finds that file, opens it, draws
    nothing, does not write to the base path, and completes. *)
Theorem second_run_reuses_saved_base (d : string) (fs : gmap string file) :
  fs !! base_image_path d = None →
  let r1 := main d fs in
  res r1 = Returned ()
  ∧ ImageNew "RGB" (256, 256) (rgb 102 126 234) ∈ trace r1
  ∧ Save (base_image_path d) simple_icon ∈ trace r1
  ∧ disk r1 !! base_image_path d = Some (picture simple_icon)
  ∧ size simple_icon = (256, 256)
  ∧ let r2 := main d (disk r1) in
    res r2 = Returned ()
    ∧ Exists (base_image_path d) true ∈ trace r2
    ∧ ImageOpen (base_image_path d) ∈ trace r2
    ∧ (∀ e, e ∈ trace r2 → ¬ is_synthesis e)
    ∧ (∀ e, e ∈ trace r2 → ¬ writes_to (base_image_path d) e)
    ∧ disk r2 !! base_image_path d = Some (picture simple_icon).
Proof.
  intros Hnone r1. subst r1. rewrite (main_absent d fs Hnone).
  cbn [res disk trace].
  set (fs1 := finish_disk d simple_icon simple_icon
                (<[base_image_path d := picture simple_icon]> fs)).
  assert (H1 : fs1 !! base_image_path d = Some (picture simple_icon)).
  { unfold fs1. rewrite finish_disk_base. apply lookup_insert_eq. }
  cbn zeta. rewrite (main_present d fs1 _ simple_icon H1 eq_refl).
  cbn [res disk trace].
  split_and!; try done.
  - apply elem_of_cons; right. apply elem_of_app; left.
    unfold synthesis_trace, drawing_trace. set_solver.
  - apply elem_of_cons; right. apply elem_of_app; left.
    unfold synthesis_trace. set_solver.
  - apply elem_of_cons; right. apply elem_of_app; left.
    unfold load_trace. set_solver.
  - apply elem_of_cons; right. apply elem_of_app; left.
    unfold load_trace. set_solver.
  - intros e H. apply elem_of_cons in H as [->|H]; [by intros []|].
    apply elem_of_app in H as [H|H].
    + by apply load_trace_elem in H as (_ & H & _).
    + by apply finish_trace_elem in H as (_ & H & _).
  - intros e H. apply elem_of_cons in H as [->|H]; [by intros []|].
    apply elem_of_app in H as [H|H].
    + by apply load_trace_elem in H as (_ & _ & H).
    + by apply finish_trace_elem in H as (_ & _ & H).
  - by rewrite finish_disk_base.
Qed.

Lemma second_run_reuses_saved_base_witness :
  (∅ : gmap string file) !! base_image_path assets = None
  ∧ res (main assets (disk (main assets ∅))) = Returned ().
Proof.
  assert (H : (∅ : gmap string file) !! base_image_path assets = None)
    by apply lookup_empty.
  split; [exact H|].
  exact (proj1 (proj2 (proj2 (proj2 (proj2 (proj2
    (second_run_reuses_saved_base assets ∅ H))))))).
Defined.

(** C10: the picture the script draws is an RGB picture, a mode without an
    alpha band; when the base picture is drawn rather than loaded, every
    per-size file of the run and every image in the container is RGB too. *)
Theorem drawn_icon_has_no_alpha (d : string) (fs : gmap string file) :
  fs !! base_image_path d = None →
  create_simple_icon fs = Run (Returned simple_icon) fs drawing_trace
  ∧ mode simple_icon = "RGB" ∧ has_alpha simple_icon = false
  ∧ size simple_icon = (256, 256)
  ∧ res (acquire_base d fs) = Returned simple_icon
  ∧ (∀ size, size ∈ SIZES →
       ∃ im, disk (main d fs) !! png_path d size = Some (picture im)
             ∧ mode im = "RGB" ∧ has_alpha im = false)
  ∧ ∃ frames, disk (main d fs) !! ico_path d = Some (icon_container frames)
              ∧ frames ≠ []
              ∧ Forall (λ fr, mode fr = "RGB" ∧ has_alpha fr = false) frames.
Proof.
  intros Hnone. rewrite (acquire_base_absent d fs Hnone), (main_absent d fs Hnone).
  cbn [res disk trace].
  split_and!; try done.
  - intros size Hin. destruct (decide (size = 256)) as [->|Hn].
    + exists simple_icon. rewrite <- base_image_path_png, finish_disk_base.
      by rewrite lookup_insert_eq.
    + exists (variant simple_icon size). by rewrite finish_disk_variant.
  - exists [variant simple_icon 16].
    rewrite finish_disk_ico, container_of_simple_icon.
    split_and!; [done..|]. by repeat constructor.
Qed.

Lemma drawn_icon_has_no_alpha_witness :
  (∅ : gmap string file) !! base_image_path assets = None
  ∧ mode simple_icon = "RGB" ∧ has_alpha simple_icon = false.
Proof.
  assert (H : (∅ : gmap string file) !! base_image_path assets = None)
    by apply lookup_empty.
  split; [exact H|].
  pose proof (drawn_icon_has_no_alpha assets ∅ H) as (_ & Hm & Ha & _).
  exact (conj Hm Ha).
Defined.

(** C1: with all six per-size files on disk, each as large as its name
    says, packaging completes and writes a container, and the script does
    pass the six sizes to the writer; but the picture it hands over is the
    first one collected, the 16 x 16 one, and the writer drops every size
    larger than the picture it is given: the container holds that one
    image, not six. *)
Theorem container_holds_only_the_smallest
    (d : string) (fs : gmap string file) (pic : positive → image) :
  (∀ s, s ∈ SIZES →
     fs !! png_path d s = Some (picture (pic s)) ∧ size (pic s) = (s, s)) →
  res (package d fs) = Returned ()
  ∧ SaveIco (ico_path d) (pic 16)
      [(16, 16); (32, 32); (48, 48); (64, 64); (128, 128); (256, 256)]
    ∈ trace (package d fs)
  ∧ disk (package d fs) !! ico_path d = Some (icon_container [pic 16])
  ∧ length [pic 16] ≠ length SIZES.
Proof.
  intros Hall.
  assert (Hdec : ∀ size f, size ∈ SIZES →
            fs !! png_path d size = Some f → is_Some (decode f)).
  { intros s f Hin Hf. destruct (Hall s Hin) as [Hs _]. simplify_eq. by eexists. }
  assert (Hc : collected d fs SIZES = pic <$> SIZES).
  { apply collected_ext. intros s Hin. destruct (Hall s Hin) as [Hs _].
    by rewrite Hs. }
  assert (Hsz : size <$> (pic <$> SIZES)
                = [(16, 16); (32, 32); (48, 48); (64, 64); (128, 128); (256, 256)]).
  { change [(16, 16); (32, 32); (48, 48); (64, 64); (128, 128); (256, 256)]
      with ((λ s : positive, (s, s)) <$> SIZES).
    rewrite <- list_fmap_compose. apply list_fmap_ext.
    intros i s Hi. apply Hall. by eapply list_elem_of_lookup_2. }
  rewrite (package_run d fs Hdec), Hc. cbn [res disk trace].
  change (pic <$> SIZES) with (pic 16 :: (pic <$> [32; 48; 64; 128; 256])).
  cbn [packed pack_events].
  change (pic 16 :: (pic <$> [32; 48; 64; 128; 256])) with (pic <$> SIZES).
  rewrite Hsz. split_and!; [done| | |done].
  - apply elem_of_app; right. apply elem_of_cons; by left.
  - rewrite lookup_insert_eq. f_equal. f_equal. apply ico_frames_16.
    apply Hall. unfold SIZES. apply elem_of_cons; by left.
Qed.

Lemma container_holds_only_the_smallest_witness :
  (∀ s, s ∈ SIZES →
     disk (main assets ∅) !! png_path assets s
     = Some (picture (found_for simple_icon simple_icon s))
     ∧ size (found_for simple_icon simple_icon s) = (s, s))
  ∧ disk (package assets (disk (main assets ∅))) !! ico_path assets
    = Some (icon_container [found_for simple_icon simple_icon 16]).
Proof.
  assert (H : ∀ s, s ∈ SIZES →
     disk (main assets ∅) !! png_path assets s
     = Some (picture (found_for simple_icon simple_icon s))
     ∧ size (found_for simple_icon simple_icon s) = (s, s)).
  { intros s Hin. unfold SIZES in Hin.
    repeat (apply elem_of_cons in Hin as [->|Hin]; [by vm_compute|]).
    by apply elem_of_nil in Hin. }
  split; [exact H|].
  exact (proj1 (proj2 (proj2
    (container_holds_only_the_smallest assets _ _ H)))).
Defined.

(** C2, as stated, fails: a run that starts with a 512 x 512 picture at
    the base path completes, and the file for size 256 is still that
    512 x 512 picture. *)
Lemma size_256_file_can_be_oversized :
  res (main assets fs_oversized) = Returned ()
  ∧ 256 ∈ SIZES
  ∧ ¬ ∃ im, disk (main assets fs_oversized) !! png_path assets 256 ≫= decode
            = Some im
            ∧ size im = (256, 256).
Proof.
  assert (H : fs_oversized !! base_image_path assets = Some (picture oversized_base))
    by apply lookup_singleton_eq.
  rewrite (main_present assets fs_oversized _ oversized_base H eq_refl).
  cbn [res disk]. split_and!; [done | unfold SIZES; set_solver |].
  intros (im & Hl & Hs).
  rewrite <- base_image_path_png, finish_disk_base, H in Hl. cbn in Hl.
  by simplify_eq.
Qed.

(** C2, amended: after a run that completes, every size of the list other
    than 256 has its file, a picture of exactly that size; the file for 256
    is there too and is the base picture: the 256 x 256 one the run drew
    when none was there, and otherwise the file that was there, untouched,
    with whatever dimensions it has. *)
Theorem per_size_files_after_run (d : string) (fs : gmap string file) :
  res (main d fs) = Returned () →
  (∀ size, size ∈ SIZES → size ≠ 256 →
     ∃ im, disk (main d fs) !! png_path d size = Some (picture im)
           ∧ Pillow.size im = (size, size))
  ∧ ∃ f im, disk (main d fs) !! png_path d 256 = Some f
            ∧ decode f = Some im
            ∧ (fs !! png_path d 256 = None →
               f = picture simple_icon ∧ size im = (256, 256))
            ∧ (∀ f0, fs !! png_path d 256 = Some f0 → f = f0).
Proof.
  rewrite <- !base_image_path_png.
  destruct (main_cases d fs) as [E ->|f im E Ed ->|f E Ed ->];
    cbn [res disk]; [| |done]; intros _.
  - split.
    + intros size Hin Hn. exists (variant simple_icon size).
      by rewrite finish_disk_variant.
    + exists (picture simple_icon), simple_icon.
      rewrite finish_disk_base, lookup_insert_eq, E. by split_and!.
  - split.
    + intros size Hin Hn. exists (variant im size).
      by rewrite finish_disk_variant.
    + exists f, im. rewrite finish_disk_base, E.
      split_and!; [done..|]. by intros f0 [= ->].
Qed.

Lemma per_size_files_after_run_witness :
  res (main assets ∅) = Returned ()
  ∧ ∀ size, size ∈ SIZES → size ≠ 256 →
      ∃ im, disk (main assets ∅) !! png_path assets size = Some (picture im)
            ∧ Pillow.size im = (size, size).
Proof.
  assert (H : res (main assets ∅) = Returned ()) by (vm_compute; reflexivity).
  split; [exact H|]. exact (proj1 (per_size_files_after_run assets ∅ H)).
Defined.

(** C3, as stated, fails: with a 512 x 512 picture at the base path,
    acquisition returns that picture, which is also what the file on disk
    holds, and it is not 256 x 256. *)
Lemma acquired_base_can_be_oversized :
  ∃ base_img,
    res (acquire_base assets fs_oversized) = Returned base_img
    ∧ disk (acquire_base assets fs_oversized) !! base_image_path assets ≫= decode
      = Some base_img
    ∧ size base_img ≠ (256, 256).
Proof.
  assert (H : fs_oversized !! base_image_path assets = Some (picture oversized_base))
    by apply lookup_singleton_eq.
  exists oversized_base.
  rewrite (acquire_base_present assets fs_oversized _ H). cbn [res disk decode].
  rewrite H. by split_and!.
Qed.

(** C3, amended: when acquisition returns, the base picture in memory is
    what the file at the base path decodes to; if no file was there, it is
    the picture just drawn, 256 x 256, and saving it is the only change on
    disk; if a file was there, it is that file's picture, of whatever
    dimensions, and the disk is unchanged. *)
Theorem acquired_base_is_the_file_on_disk
    (d : string) (fs : gmap string file) (base_img : image) :
  res (acquire_base d fs) = Returned base_img →
  disk (acquire_base d fs) !! base_image_path d ≫= decode = Some base_img
  ∧ (fs !! base_image_path d = None →
     base_img = simple_icon ∧ size base_img = (256, 256)
     ∧ disk (acquire_base d fs) = <[base_image_path d := picture simple_icon]> fs)
  ∧ (∀ f, fs !! base_image_path d = Some f →
     decode f = Some base_img ∧ disk (acquire_base d fs) = fs).
Proof.
  intros Ha. split; [by apply acquire_base_on_disk|]. split.
  - intros E. rewrite (acquire_base_absent d fs E) in Ha |- *.
    cbn [res disk] in *. by simplify_eq.
  - intros f E. rewrite (acquire_base_present d fs f E) in Ha |- *.
    cbn [res disk] in *. by destruct (decode f); simplify_eq.
Qed.

Lemma acquired_base_is_the_file_on_disk_witness :
  res (acquire_base assets fs_oversized) = Returned oversized_base
  ∧ disk (acquire_base assets fs_oversized) !! base_image_path assets ≫= decode
    = Some oversized_base.
Proof.
  assert (H : res (acquire_base assets fs_oversized) = Returned oversized_base)
    by (vm_compute; reflexivity).
  split; [exact H|].
  exact (proj1 (acquired_base_is_the_file_on_disk assets fs_oversized _ H)).
Defined.

(** ** Further properties of the script *)

Section Outputs.
Context (d : string).

Lemma elem_of_output_paths p :
  p ∈ output_paths d ↔ p = ico_path d ∨ ∃ size, size ∈ SIZES ∧ p = png_path d size.
Proof.
  unfold output_paths. rewrite elem_of_app, list_elem_of_fmap, list_elem_of_singleton.
  split.
  - intros [(size & -> & Hin)| ->]; [right; eauto | by left].
  - intros [->|(size & Hin & ->)]; [by right | left; eauto].
Qed.

Lemma base_image_path_output : base_image_path d ∈ output_paths d.
Proof.
  apply elem_of_output_paths. right. exists 256. split; [|done].
  unfold SIZES. set_solver.
Qed.

(** The file at a path after [finish], by kind of path. *)
Lemma finish_disk_other base_img b fs p :
  p ∉ output_paths d → finish_disk d base_img b fs !! p = fs !! p.
Proof.
  intros Hp. unfold finish_disk.
  rewrite lookup_insert_ne.
  - apply write_variants_other. intros size Hin _ ->.
    apply Hp, elem_of_output_paths. eauto.
  - intros <-. apply Hp, elem_of_output_paths. eauto.
Qed.

Lemma finish_disk_output base_img b fs p :
  p ∈ output_paths d →
  finish_disk d base_img b fs !! p
  = if decide (p = ico_path d) then Some (container_of base_img b)
    else if decide (p = base_image_path d) then fs !! base_image_path d
    else finish_disk d base_img b ∅ !! p.
Proof.
  intros Hp. destruct (decide (p = ico_path d)) as [->|Hi].
  { apply finish_disk_ico. }
  destruct (decide (p = base_image_path d)) as [->|Hb].
  { apply finish_disk_base. }
  apply elem_of_output_paths in Hp as [?|(size & Hin & ->)]; [done|].
  assert (size ≠ 256) by (intros ->; by apply Hb).
  by rewrite !finish_disk_variant.
Qed.

Lemma finish_disk_idemp base_img b fs :
  finish_disk d base_img b (finish_disk d base_img b fs)
  = finish_disk d base_img b fs.
Proof.
  apply map_eq. intros p.
  destruct (decide (p ∈ output_paths d)) as [Hp|Hp].
  - rewrite (finish_disk_output _ _ (finish_disk d base_img b fs) p Hp).
    rewrite (finish_disk_output _ _ fs p Hp).
    repeat case_decide; try done. apply finish_disk_base.
  - by rewrite finish_disk_other.
Qed.

End Outputs.

(** A run that raises has changed nothing on the disk. *)
Lemma main_raised_disk (d : string) (fs : gmap string file) (e : exn) :
  res (main d fs) = Raised e → disk (main d fs) = fs.
Proof.
  by destruct (main_cases d fs) as [E ->|f im E Ed ->|f E Ed ->].
Qed.

(** X2: when the base path holds a file the library cannot identify, the
    run stops while opening it, with [UnidentifiedImageError] for that
    path and exit status 1; up to there it has only changed directory,
    tested the path, printed and tried to open the file, so nothing is
    drawn, resized or written and the disk is as it was. *)
Theorem unidentified_base_stops_the_run
    (d : string) (fs : gmap string file) (f : file) :
  fs !! base_image_path d = Some f → decode f = None →
  res (main d fs) = Raised (UnidentifiedImageError (base_image_path d))
  ∧ exit_status (res (main d fs)) = 1%Z
  ∧ disk (main d fs) = fs
  ∧ trace (main d fs) = Chdir d :: load_trace d
  ∧ ImageOpen (base_image_path d) ∈ trace (main d fs)
  ∧ (∀ ev, ev ∈ trace (main d fs) →
       ¬ is_resize ev ∧ ¬ is_synthesis ev ∧ ∀ p, ¬ writes_to p ev).
Proof.
  intros E Ed. rewrite (main_unreadable d fs f E Ed). cbn [res disk trace].
  split_and!; [done..| |].
  - unfold load_trace. apply elem_of_cons. right. set_solver.
  - intros ev H. apply elem_of_cons in H as [->|H].
    + split_and!; [by intros []..|]. by intros p [].
    + by apply load_trace_elem in H.
Qed.

Lemma unidentified_base_stops_the_run_witness :
  ({[ base_image_path assets := unreadable ]} : gmap string file)
    !! base_image_path assets = Some unreadable
  ∧ decode unreadable = None
  ∧ res (main assets {[ base_image_path assets := unreadable ]})
    = Raised (UnidentifiedImageError (base_image_path assets))
  ∧ disk (main assets {[ base_image_path assets := unreadable ]})
    = {[ base_image_path assets := unreadable ]}.
Proof.
  assert (E : ({[ base_image_path assets := unreadable ]} : gmap string file)
                !! base_image_path assets = Some unreadable)
    by apply lookup_singleton_eq.
  assert (Ed : decode unreadable = None) by reflexivity.
  split; [exact E|]. split; [exact Ed|].
  pose proof (unidentified_base_stops_the_run assets _ unreadable E Ed) as H.
  split; [exact (proj1 H)|]. exact (proj1 (proj2 (proj2 H))).
Defined.

(** X3: a run touches no path but the six per-size paths and the
    container's; it removes no file; and when it completes, the files on
    disk are those that were there plus exactly these seven. *)
Theorem run_writes_only_its_outputs (d : string) (fs : gmap string file) :
  (∀ p, p ∉ output_paths d → disk (main d fs) !! p = fs !! p)
  ∧ (∀ p, is_Some (fs !! p) → is_Some (disk (main d fs) !! p))
  ∧ (res (main d fs) = Returned () →
     dom (disk (main d fs)) = dom fs ∪ list_to_set (output_paths d))
  ∧ length (output_paths d) = 7%nat ∧ NoDup (output_paths d).
Proof.
  assert (Hsome : ∀ base_img b fs' p,
            is_Some (fs' !! base_image_path d) → p ∈ output_paths d →
            is_Some (finish_disk d base_img b fs' !! p)).
  { intros base_img b fs' p Hb Hp. rewrite (finish_disk_output d _ _ _ p Hp).
    destruct (decide (p = ico_path d)); [by eexists|].
    destruct (decide (p = base_image_path d)) as [->|Hn]; [done|].
    apply elem_of_output_paths in Hp as [?|(size & Hin & ->)]; [done|].
    rewrite finish_disk_variant; [by eexists | done |].
    intros ->. by apply Hn. }
  assert (Hout : res (main d fs) = Returned () →
            ∀ p, p ∈ output_paths d → is_Some (disk (main d fs) !! p)).
  { destruct (main_cases d fs) as [E ->|f im E Ed ->|f E Ed ->]; cbn [res disk];
      [| |done]; intros _ p Hp; (apply Hsome; [|done]).
    - rewrite lookup_insert_eq. by eexists.
    - rewrite E. by eexists. }
  assert (Hother : ∀ p, p ∉ output_paths d → disk (main d fs) !! p = fs !! p).
  { intros p Hp.
    destruct (main_cases d fs) as [E ->|f im E Ed ->|f E Ed ->]; cbn [disk];
      [| |done]; rewrite finish_disk_other by done; [|done].
    apply lookup_insert_ne. intros <-. apply Hp, base_image_path_output. }
  split_and!.
  - exact Hother.
  - intros p Hp. destruct (decide (p ∈ output_paths d)) as [Hin|Hnin].
    + destruct (res (main d fs)) as [[]|e] eqn:Hr.
      * by apply Hout.
      * by rewrite (main_raised_disk d fs e Hr).
    + by rewrite Hother.
  - intros Hr. apply set_eq. intros p.
    rewrite elem_of_union, !elem_of_dom, elem_of_list_to_set.
    destruct (decide (p ∈ output_paths d)) as [Hin|Hnin].
    + split; [by right | intros _; by apply Hout].
    + rewrite Hother by done. split; [by left | by intros [?|?]].
  - done.
  - unfold output_paths. apply NoDup_app. split_and!.
    + apply (NoDup_fmap_2_strong (png_path d)).
      * intros s t _ _ E. by apply png_path_inj in E.
      * unfold SIZES. compute_done.
    + intros p (size & -> & _)%list_elem_of_fmap Hi%list_elem_of_singleton.
      by apply (ico_path_not_png d size).
    + apply NoDup_singleton.
Qed.

(** X4: running the script a second time changes nothing: the second run
    ends as the first did and leaves the disk as the first left it. *)
Theorem second_run_changes_nothing (d : string) (fs : gmap string file) :
  res (main d (disk (main d fs))) = res (main d fs)
  ∧ disk (main d (disk (main d fs))) = disk (main d fs).
Proof.
  destruct (main_cases d fs) as [E H|f im E Ed H|f E Ed H].
  - rewrite H. cbn [res disk].
    set (fs1 := <[base_image_path d := picture simple_icon]> fs).
    assert (H1 : finish_disk d simple_icon simple_icon fs1 !! base_image_path d
                 = Some (picture simple_icon)).
    { rewrite finish_disk_base. apply lookup_insert_eq. }
    rewrite (main_present d _ _ simple_icon H1 eq_refl). cbn [res disk].
    by rewrite finish_disk_idemp.
  - rewrite H. cbn [res disk].
    assert (H1 : finish_disk d im im fs !! base_image_path d = Some f)
      by (by rewrite finish_disk_base).
    rewrite (main_present d _ _ im H1 Ed). cbn [res disk].
    by rewrite finish_disk_idemp.
  - rewrite H. cbn [res disk]. by rewrite H.
Qed.

(** X5: what a run does is decided by the file at the base path alone:
    two starting states that agree there give the same outcome, the same
    log and the same seven output files, whatever else is on disk (stale
    per-size files or an old container included). *)
Theorem run_depends_on_base_only (d : string) (fs fs' : gmap string file) :
  fs !! base_image_path d = fs' !! base_image_path d →
  res (main d fs) = res (main d fs')
  ∧ trace (main d fs) = trace (main d fs')
  ∧ (res (main d fs) = Returned () →
     ∀ p, p ∈ output_paths d → disk (main d fs) !! p = disk (main d fs') !! p).
Proof.
  intros Heq.
  destruct (main_cases d fs) as [E ->|f im E Ed ->|f E Ed ->]; rewrite Heq in E.
  - rewrite (main_absent d fs' E). cbn [res disk trace]. split_and!; [done..|].
    intros _ p Hp.
    rewrite (finish_disk_output d _ _ (<[_ := _]> fs) p Hp).
    rewrite (finish_disk_output d _ _ (<[_ := _]> fs') p Hp).
    repeat case_decide; try done. by rewrite !lookup_insert_eq.
  - rewrite (main_present d fs' f im E Ed). cbn [res disk trace].
    split_and!; [done..|].
    intros _ p Hp.
    rewrite (finish_disk_output d _ _ fs p Hp), (finish_disk_output d _ _ fs' p Hp).
    repeat case_decide; try done.
  - rewrite (main_unreadable d fs' f E Ed). cbn [res disk trace].
    by split_and!.
Qed.

Lemma run_depends_on_base_only_witness :
  (∅ : gmap string file) !! base_image_path assets
  = fs_stale !! base_image_path assets
  ∧ res (main assets ∅) = res (main assets fs_stale)
  ∧ trace (main assets ∅) = trace (main assets fs_stale).
Proof.
  assert (H : (∅ : gmap string file) !! base_image_path assets
              = fs_stale !! base_image_path assets).
  { rewrite lookup_empty. symmetry. apply lookup_singleton_ne.
    rewrite base_image_path_png. intros E. by apply png_path_inj in E. }
  split; [exact H|].
  pose proof (run_depends_on_base_only assets ∅ fs_stale H) as (Hr & Ht & _).
  exact (conj Hr Ht).
Defined.

Section PackagingErrors.
Context (d : string).

Lemma collect_loop_raised sizes ico_images fs e :
  res (collect_loop d sizes ico_images fs) = Raised e →
  ∃ size f, size ∈ sizes ∧ fs !! png_path d size = Some f ∧ decode f = None
            ∧ e = UnidentifiedImageError (png_path d size).
Proof.
  revert ico_images. induction sizes as [|size rest IH]; intros acc; [done|].
  cbn [collect_loop]. unfold path_exists, Image_open, mbind, M_bind, bind.
  cbn [res disk trace].
  destruct (fs !! png_path d size) as [f|] eqn:E; cbn; rewrite ?E; cbn.
  - destruct (decode f) eqn:Ed; cbn.
    + intros (s & g & ? & ?)%IH. exists s, g. split; [by right | done].
    + intros [= <-]. exists size, f. split; [by left | done].
  - intros (s & g & ? & ?)%IH. exists s, g. split; [by right | done].
Qed.

Lemma package_raised fs e :
  res (package d fs) = Raised e →
  disk (package d fs) = fs
  ∧ ∃ size f, size ∈ SIZES ∧ fs !! png_path d size = Some f ∧ decode f = None
              ∧ e = UnidentifiedImageError (png_path d size).
Proof.
  pose proof (collect_loop_disk d SIZES [] fs) as Hd.
  pose proof (collect_loop_raised SIZES [] fs) as Hr.
  destruct (collect_loop d SIZES [] fs) as [[l|e'] fs1 t] eqn:Hc;
    cbn [res disk] in *; subst fs1.
  - unfold package. destruct l as [|first l].
    + by rewrite (run_seq _ _ _ _ _ _ _ _ _ Hc eq_refl).
    + by rewrite (run_seq _ _ _ _ _ _ _ _ _ Hc eq_refl).
  - unfold package. rewrite (run_bind_raised _ _ _ _ _ _ Hc). cbn [res disk].
    intros [= <-]. split; [done|]. by apply Hr.
Qed.

Lemma collect_loop_returned sizes ico_images fs l :
  res (collect_loop d sizes ico_images fs) = Returned l →
  ∀ size f, size ∈ sizes → fs !! png_path d size = Some f → is_Some (decode f).
Proof.
  revert ico_images. induction sizes as [|s rest IH]; intros acc Hr size f Hin Hf.
  { by apply elem_of_nil in Hin. }
  revert Hr. cbn [collect_loop].
  unfold path_exists, Image_open, mbind, M_bind, bind. cbn [res disk trace].
  destruct (fs !! png_path d s) as [g|] eqn:E; cbn; rewrite ?E; cbn.
  - destruct (decode g) as [im|] eqn:Ed; cbn; [|done]. intros Hr.
    apply elem_of_cons in Hin as [->|Hin]; [|by eapply IH].
    simplify_eq. by eexists.
  - intros Hr. apply elem_of_cons in Hin as [->|Hin]; [|by eapply IH].
    by simplify_eq.
Qed.

Lemma package_returned fs :
  res (package d fs) = Returned () →
  ∃ l, res (collect_loop d SIZES [] fs) = Returned l.
Proof.
  unfold package.
  destruct (collect_loop d SIZES [] fs) as [[l|e] fs1 t] eqn:Hc; [by eexists|].
  by rewrite (run_bind_raised _ _ _ _ _ _ Hc).
Qed.

End PackagingErrors.

(** X6: when some per-size file on disk is one the library cannot
    identify, packaging on its own does not complete: it raises
    [UnidentifiedImageError] for such a file, one that is on disk - a
    missing file is skipped, never an error - and it has written nothing,
    so no container is made. *)
Theorem unidentified_variant_stops_packaging
    (d : string) (fs : gmap string file) (size : positive) (f : file) :
  size ∈ SIZES → fs !! png_path d size = Some f → decode f = None →
  res (package d fs) ≠ Returned ()
  ∧ disk (package d fs) = fs
  ∧ ∃ size' f', size' ∈ SIZES ∧ fs !! png_path d size' = Some f'
                ∧ decode f' = None
                ∧ res (package d fs)
                  = Raised (UnidentifiedImageError (png_path d size')).
Proof.
  intros Hin Hf Hd.
  assert (Hn : res (package d fs) ≠ Returned ()).
  { intros (l & Hl)%package_returned.
    destruct (collect_loop_returned d SIZES [] fs l Hl size f Hin Hf) as [im ?].
    congruence. }
  split; [done|].
  destruct (res (package d fs)) as [[]|e] eqn:Hr; [done|].
  destruct (package_raised d fs e Hr) as (Hdisk & size' & f' & ? & ? & ? & ->).
  split; [done|]. by exists size', f'.
Qed.

Lemma unidentified_variant_stops_packaging_witness :
  16 ∈ SIZES ∧ fs_stale !! png_path assets 16 = Some unreadable
  ∧ decode unreadable = None
  ∧ res (package assets fs_stale) ≠ Returned ()
  ∧ disk (package assets fs_stale) = fs_stale.
Proof.
  assert (Hin : 16 ∈ SIZES) by (unfold SIZES; apply elem_of_cons; by left).
  assert (Hf : fs_stale !! png_path assets 16 = Some unreadable)
    by apply lookup_singleton_eq.
  assert (Hd : decode unreadable = None) by reflexivity.
  split; [exact Hin|]. split; [exact Hf|]. split; [exact Hd|].
  pose proof (unidentified_variant_stops_packaging assets fs_stale 16 unreadable
                Hin Hf Hd) as H.
  split; [exact (proj1 H) | exact (proj1 (proj2 H))].
Defined.

(** *** What the ICO writer embeds *)

Lemma elem_of_insert_size (s t : positive * positive) l :
  t ∈ insert_size s l ↔ t = s ∨ t ∈ l.
Proof.
  induction l as [|u l IH]; cbn [insert_size].
  - rewrite list_elem_of_singleton, elem_of_nil. tauto.
  - case_bool_decide as Hsu; [subst u|destruct (size_lt s u)].
    + rewrite elem_of_cons. tauto.
    + by rewrite elem_of_cons.
    + rewrite !elem_of_cons, IH. tauto.
Qed.

Lemma elem_of_sorted_set (s : positive * positive) l : s ∈ sorted_set l ↔ s ∈ l.
Proof.
  unfold sorted_set. induction l as [|t l IH]; cbn [foldr]; [done|].
  by rewrite elem_of_insert_size, elem_of_cons, IH.
Qed.

Lemma elem_of_ico_frames (fr im : image) sizes :
  fr ∈ ico_frames im sizes
  ↔ ∃ s, s ∈ sizes ∧ too_large im s = false
         ∧ fr = if bool_decide (size im = s) then im else thumbnail im s.
Proof.
  unfold ico_frames. rewrite list_elem_of_fmap. split.
  - intros (s & -> & [Hl Hin]%list_elem_of_filter).
    apply (proj1 (elem_of_sorted_set _ _)) in Hin. by exists s.
  - intros (s & Hin & Hl & ->). exists s. split; [done|].
    apply list_elem_of_filter. by rewrite elem_of_sorted_set.
Qed.

Lemma too_large_false (im : image) (s : positive * positive) :
  too_large im s = false → (s.1 ≤ (size im).1 ∧ s.2 ≤ (size im).2)%positive.
Proof.
  unfold too_large. rewrite !orb_false_iff.
  intros [[[H1 H2] _] _]. apply bool_decide_eq_false in H1, H2. lia.
Qed.

(** A thumbnail of a 16 x 16 picture bounded by a smaller box is a square
    with the box's smaller side. *)
Lemma thumbnail_of_16 (im : image) (x y : positive) :
  size im = (16, 16) → (x ≤ 16)%positive → (y ≤ 16)%positive → (x, y) ≠ (16, 16) →
  size (thumbnail im (x, y)) = (Pos.min x y, Pos.min x y).
Proof.
  intros Him Hx Hy Hne. unfold thumbnail, thumbnail_size. rewrite Him. cbn [fst snd].
  assert (Hfit : bool_decide (16 ≤ Z.pos x)%Z && bool_decide (16 ≤ Z.pos y)%Z = false).
  { apply andb_false_iff. destruct (decide (x = 16)) as [->|?].
    - right. apply bool_decide_eq_false. intros ?. apply Hne. f_equal. lia.
    - left. apply bool_decide_eq_false. lia. }
  rewrite Hfit. clear Hfit. unfold round_aspect.
  rewrite !Z.div_mul, !Z.mod_mul by lia.
  rewrite !(bool_decide_true (0 = 0)%Z) by done.
  repeat match goal with
    | |- context [if ?c then ?a else ?a] =>
        replace (if c then a else a) with a by (by destruct c)
    end.
  rewrite !Z.max_l by lia. cbn [Z.to_pos].
  case_bool_decide as Hc; cbn [size resize].
  - by rewrite Pos.min_r by lia.
  - by rewrite Pos.min_l by lia.
Qed.

Lemma container_frames (base_img b fr : image) :
  variant base_img 16
  ∈ ico_frames (variant base_img 16) (size <$> ico_images_of base_img b)
  ∧ (fr ∈ ico_frames (variant base_img 16) (size <$> ico_images_of base_img b) →
     ((size fr).1 ≤ 16 ∧ (size fr).2 ≤ 16)%positive
     ∧ (fr = variant base_img 16
        ∨ fr = thumbnail (variant base_img 16) (size b))).
Proof.
  split.
  - apply elem_of_ico_frames. exists (16, 16). split_and!; [|done..].
    unfold ico_images_of, SIZES. cbn [fmap list_fmap]. by left.
  - intros (s & Hin & Hl & ->)%elem_of_ico_frames.
    apply too_large_false in Hl as [H1 H2]. cbn [size variant resize fst snd] in H1, H2.
    case_bool_decide as Hs; [by split; [|left]|].
    cbn [size variant resize] in Hs.
    apply list_elem_of_fmap in Hin as (im & -> & Him).
    apply list_elem_of_fmap in Him as (k & -> & Hk).
    unfold found_for in *. case_bool_decide as Hk256.
    + destruct (size b) as [x y] eqn:Hb. cbn [fst snd] in *.
      rewrite thumbnail_of_16; [|done..]. cbn [fst snd].
      split; [lia | by right].
    + exfalso. cbn [size variant resize fst snd] in *.
      unfold SIZES in Hk.
      repeat (apply elem_of_cons in Hk as [->|Hk]; [done || lia|]).
      by apply elem_of_nil in Hk.
Qed.

(** [sorted(set(sizes))] is in strictly increasing order, so dropping the
    sizes that do not fit can be done before or after inserting one. *)
Section SortedSizes.

Lemma size_lt_spec (a b : positive * positive) :
  size_lt a b = true ↔ (a.1 < b.1 ∨ (a.1 = b.1 ∧ a.2 < b.2))%positive.
Proof.
  unfold size_lt. rewrite orb_true_iff, andb_true_iff, !bool_decide_eq_true. tauto.
Qed.

Lemma size_lt_irrefl (a : positive * positive) : size_lt a a = false.
Proof.
  apply not_true_iff_false. rewrite size_lt_spec. lia.
Qed.

Lemma size_lt_trans (a b c : positive * positive) :
  size_lt a b = true → size_lt b c = true → size_lt a c = true.
Proof. rewrite !size_lt_spec. lia. Qed.

Lemma size_lt_total (a b : positive * positive) :
  a ≠ b → size_lt a b = false → size_lt b a = true.
Proof.
  intros Hne H%not_true_iff_false. rewrite size_lt_spec in *.
  destruct a as [a1 a2], b as [b1 b2]; cbn [fst snd] in *.
  assert (a1 ≠ b1 ∨ a2 ≠ b2) as Hd.
  { destruct (decide (a1 = b1)) as [->|?]; [right|by left]. by intros ->. }
  lia.
Qed.

Lemma insert_size_below (s : positive * positive) l :
  Forall (lt_size s) l → insert_size s l = s :: l.
Proof.
  intros H. destruct l as [|u l]; [done|]. cbn [insert_size].
  apply Forall_cons in H as [Hu _]. unfold lt_size in Hu.
  rewrite bool_decide_false, Hu; [done|].
  intros ->. by rewrite size_lt_irrefl in Hu.
Qed.

Lemma insert_size_sorted (s : positive * positive) l :
  StronglySorted lt_size l → StronglySorted lt_size (insert_size s l).
Proof.
  induction 1 as [|u l Hl IH Hu]; cbn [insert_size].
  { repeat constructor. }
  case_bool_decide as Hsu; [by constructor|].
  destruct (size_lt s u) eqn:Hlt.
  - constructor; [by constructor|]. constructor; [done|].
    eapply Forall_impl; [exact Hu|]. intros v Hv. by eapply size_lt_trans.
  - constructor; [done|]. apply Forall_forall. intros v Hv.
    apply elem_of_insert_size in Hv as [->|Hv].
    + by apply size_lt_total.
    + by eapply (proj1 (Forall_forall _ _) Hu).
Qed.

Lemma sorted_set_sorted sizes : StronglySorted lt_size (sorted_set sizes).
Proof.
  unfold sorted_set. induction sizes as [|s l IH]; cbn [foldr].
  - constructor.
  - by apply insert_size_sorted.
Qed.

Context (P : positive * positive → Prop) `{!∀ s, Decision (P s)}.

Lemma filter_insert_size_drop (s : positive * positive) l :
  ¬ P s → filter P (insert_size s l) = filter P l.
Proof.
  intros Hs. induction l as [|u l IH]; cbn [insert_size].
  { by rewrite filter_cons_False. }
  case_bool_decide as Hsu; [done|]. destruct (size_lt s u).
  - by rewrite (filter_cons_False _ s).
  - destruct (decide (P u)).
    + by rewrite !(filter_cons_True _ u), IH.
    + by rewrite !(filter_cons_False _ u), IH.
Qed.

Lemma filter_insert_size_keep (s : positive * positive) l :
  StronglySorted lt_size l → P s →
  filter P (insert_size s l) = insert_size s (filter P l).
Proof.
  intros Hl Hs. induction Hl as [|u l Hl IH Hu]; cbn [insert_size].
  { by rewrite filter_cons_True. }
  case_bool_decide as Hsu.
  - subst u. rewrite filter_cons_True by done. cbn [insert_size].
    by rewrite bool_decide_true.
  - destruct (size_lt s u) eqn:Hlt.
    + rewrite (filter_cons_True _ s) by done. symmetry.
      apply insert_size_below. apply Forall_forall. intros v Hv.
      apply list_elem_of_filter in Hv as [_ Hv].
      apply elem_of_cons in Hv as [->|Hv]; [done|].
      eapply size_lt_trans; [exact Hlt|].
      by eapply (proj1 (Forall_forall _ _) Hu).
    + destruct (decide (P u)).
      * rewrite !(filter_cons_True _ u) by done. cbn [insert_size].
        by rewrite bool_decide_false, Hlt, IH.
      * by rewrite !(filter_cons_False _ u), IH.
Qed.

End SortedSizes.

(** The images of the container, exactly. *)
Lemma container_frames_exact (base_img b : image) :
  ico_frames (variant base_img 16) (size <$> ico_images_of base_img b)
  = if smaller_than_16 (size b)
    then [thumbnail (variant base_img 16) (size b); variant base_img 16]
    else [variant base_img 16].
Proof.
  unfold ico_frames, ico_images_of, SIZES, sorted_set.
  cbn [fmap list_fmap foldr found_for]. unfold found_for.
  rewrite !bool_decide_false by done. rewrite bool_decide_true by done.
  cbn [size variant resize].
  set (P := λ s, too_large (variant base_img 16) s = false).
  set (M := insert_size (32, 32) _).
  assert (HM : StronglySorted lt_size M).
  { subst M. repeat apply insert_size_sorted. constructor. }
  rewrite (filter_insert_size_keep P _ _ HM) by done.
  subst M. rewrite !(filter_insert_size_drop P) by (by intros ?).
  cbn [insert_size foldr]. change (insert_size (size b) []) with [size b].
  destruct (size b) as [x y]. unfold smaller_than_16. cbn [fst snd].
  destruct (decide (P (x, y))) as [Hp|Hp].
  - rewrite filter_cons_True by done. rewrite filter_nil. cbn [insert_size].
    pose proof (too_large_false _ _ Hp) as [Hx Hy]. cbn in Hx, Hy.
    rewrite (bool_decide_true (x ≤ 16)%positive), (bool_decide_true (y ≤ 16)%positive) by done.
    cbn [andb]. rewrite (bool_decide_ext ((16,16) = (x,y)) ((x,y) = (16,16))) by done.
    case_bool_decide as He; cbn [negb].
    + simplify_eq. cbn [fmap list_fmap]. by rewrite bool_decide_true.
    + replace (size_lt (16, 16) (x, y)) with false.
      2:{ symmetry. apply not_true_iff_false. rewrite size_lt_spec. cbn [fst snd]. lia. }
      cbn [insert_size fmap list_fmap].
      rewrite (bool_decide_false ((16,16) = (x,y))) by done.
      by rewrite bool_decide_true.
  - rewrite filter_cons_False by done. rewrite filter_nil. cbn [insert_size fmap list_fmap].
    rewrite bool_decide_true by done.
    replace (bool_decide (x ≤ 16)%positive && bool_decide (y ≤ 16)%positive) with false; [done|].
    symmetry. apply not_true_iff_false. rewrite andb_true_iff, !bool_decide_eq_true.
    intros [Hx Hy]. apply Hp. unfold P, too_large. cbn [size variant resize fst snd].
    rewrite !bool_decide_false by lia. done.
Qed.

(** X7: whatever the base picture is, the container a completed run leaves
    never holds an image larger than 16 x 16.  It holds the 16 x 16
    variant and nothing else, unless the base picture itself fits in
    16 x 16 without being 16 x 16: then it holds two images, a thumbnail
    of the 16 x 16 variant bounded by the base picture's size, and the
    variant.  None of the larger variants gets into the container. *)
Theorem container_never_exceeds_16 (d : string) (fs : gmap string file) :
  res (main d fs) = Returned () →
  ∃ base_img frames,
    disk (main d fs) !! base_image_path d ≫= decode = Some base_img
    ∧ disk (main d fs) !! ico_path d = Some (icon_container frames)
    ∧ frames = (if smaller_than_16 (size base_img)
                then [thumbnail (variant base_img 16) (size base_img);
                      variant base_img 16]
                else [variant base_img 16])
    ∧ variant base_img 16 ∈ frames
    ∧ (length frames ≤ 2)%nat
    ∧ ∀ fr, fr ∈ frames →
        ((size fr).1 ≤ 16 ∧ (size fr).2 ≤ 16)%positive
        ∧ (fr = variant base_img 16
           ∨ fr = thumbnail (variant base_img 16) (size base_img)).
Proof.
  assert (Hlen : ∀ im : image,
            (length (ico_frames (variant im 16) (size <$> ico_images_of im im))
             ≤ 2)%nat).
  { intros im. rewrite container_frames_exact.
    destruct (smaller_than_16 (size im)); cbn [length]; lia. }
  destruct (main_cases d fs) as [E ->|f im E Ed ->|f E Ed ->]; cbn [res disk];
    [| |done]; intros _.
  - exists simple_icon, (ico_frames (variant simple_icon 16)
                           (size <$> ico_images_of simple_icon simple_icon)).
    rewrite finish_disk_base, lookup_insert_eq, finish_disk_ico.
    split_and!; [done..| | | |].
    + apply container_frames_exact.
    + apply (container_frames simple_icon simple_icon simple_icon).
    + apply Hlen.
    + intros fr. apply container_frames.
  - exists im, (ico_frames (variant im 16) (size <$> ico_images_of im im)).
    rewrite finish_disk_base, E, finish_disk_ico.
    split_and!; [done..| | | |].
    + apply container_frames_exact.
    + apply (container_frames im im im).
    + apply Hlen.
    + intros fr. apply container_frames.
Qed.

Lemma container_never_exceeds_16_witness :
  res (main assets fs_oversized) = Returned ()
  ∧ ∃ base_img frames,
      disk (main assets fs_oversized) !! ico_path assets
      = Some (icon_container frames)
      ∧ variant base_img 16 ∈ frames
      ∧ (length frames ≤ 2)%nat.
Proof.
  assert (H : res (main assets fs_oversized) = Returned ()).
  { rewrite (main_present assets fs_oversized (picture oversized_base)
               oversized_base); [done| |done].
    apply lookup_singleton_eq. }
  split; [exact H|].
  destruct (container_never_exceeds_16 assets fs_oversized H)
    as (base_img & frames & _ & Hi & _ & Hv & Hl & _).
  exists base_img, frames. exact (conj Hi (conj Hv Hl)).
Defined.

(** X8: after a completed run the output directory is consistent: each
    per-size file other than the one for 256 is exactly the LANCZOS resize,
    to its own size, of the picture that the file for 256 holds, whatever
    was at those paths before. *)
Theorem variants_match_the_base_file (d : string) (fs : gmap string file) :
  res (main d fs) = Returned () →
  ∃ base_img,
    disk (main d fs) !! png_path d 256 ≫= decode = Some base_img
    ∧ ∀ size, size ∈ SIZES → size ≠ 256 →
        disk (main d fs) !! png_path d size
        = Some (picture (resize base_img (size, size) LANCZOS)).
Proof.
  rewrite <- base_image_path_png.
  destruct (main_cases d fs) as [E ->|f im E Ed ->|f E Ed ->]; cbn [res disk];
    [| |done]; intros _.
  - exists simple_icon. rewrite finish_disk_base, lookup_insert_eq.
    split; [done|]. intros size Hin Hn. by rewrite finish_disk_variant.
  - exists im. rewrite finish_disk_base, E.
    split; [done|]. intros size Hin Hn. by rewrite finish_disk_variant.
Qed.

Lemma variants_match_the_base_file_witness :
  res (main assets fs_stale) = Returned ()
  ∧ ∃ base_img,
      disk (main assets fs_stale) !! png_path assets 256 ≫= decode = Some base_img
      ∧ disk (main assets fs_stale) !! png_path assets 16
        = Some (picture (resize base_img (16, 16) LANCZOS)).
Proof.
  assert (H : res (main assets fs_stale) = Returned ()).
  { rewrite (main_absent assets fs_stale); [done|].
    apply lookup_singleton_ne. rewrite base_image_path_png.
    intros E. by apply png_path_inj in E. }
  split; [exact H|].
  destruct (variants_match_the_base_file assets fs_stale H) as (base_img & Hb & Hv).
  exists base_img. split; [exact Hb|]. apply Hv; [|done].
  unfold SIZES. apply elem_of_cons. by left.
Defined.

(** X9: a completed run makes exactly five resizes, to 16, 32, 48, 64 and
    128 in this order, and saves each output once: the base picture first
    if it had to be drawn, then the five variants in the same order, then
    the container. *)
Theorem calls_of_a_completed_run (d : string) (fs : gmap string file) :
  res (main d fs) = Returned () →
  resize_targets (trace (main d fs))
  = [(16, 16); (32, 32); (48, 48); (64, 64); (128, 128)]
  ∧ written_paths (trace (main d fs))
    = (match fs !! base_image_path d with
       | None => [base_image_path d]
       | Some _ => []
       end ++ (png_path d <$> [16; 32; 48; 64; 128]) ++ [ico_path d])%list.
Proof.
  destruct (main_cases d fs) as [E ->|f im E Ed ->|f E Ed ->]; cbn [res trace];
    [| |done]; intros _; rewrite E.
  - split; reflexivity.
  - split; reflexivity.
Qed.

Lemma calls_of_a_completed_run_witness :
  res (main assets ∅) = Returned ()
  ∧ resize_targets (trace (main assets ∅))
    = [(16, 16); (32, 32); (48, 48); (64, 64); (128, 128)].
Proof.
  assert (H : res (main assets ∅) = Returned ()).
  { by rewrite (main_absent assets ∅ (lookup_empty _)). }
  split; [exact H|]. exact (proj1 (calls_of_a_completed_run assets ∅ H)).
Defined.
